(** * Frame scanner for Nortek AD2CP files: [ldc_ad2cp_in_file.cpp]

    A shallow embedding of [cs] and [do_ldc_ad2cp_in_file] and the
    properties of the frame scanner that follow from the code.

    Conventions of the embedding.
    - A byte ([unsigned char], or a non-EOF result of [getc]) is a
      [Byte.byte]; [ub] gives its value in [0, 255].
    - C integers are values of [Z] and every conversion is written out:
      [to_ushort], [to_uint] and [to_ulong] reduce modulo 2^16, 2^32 and
      2^64 ([unsigned short], [unsigned int], [unsigned long] of the LP64
      data model of Linux and macOS), [to_int] is the conversion to a
      32-bit two's complement [int], which is also what the arithmetic on
      [int] produces when it overflows on the usual compilers.
    - The opened file is the list of the bytes from the cursor to the end
      of the file; reading removes bytes from the front.
    - [::Rf_error] never returns: it is the outcome [Fatal].  Reading or
      writing outside [dbuf] has no defined result: it is the outcome
      [Undefined]. *)

From Stdlib Require Import ZArith List Lia Bool.
From Stdlib Require Import Strings.Byte.
Import ListNotations.
Local Open Scope Z_scope.

(** ** Integer types *)

Definition ub (b : byte) : Z := Z.of_N (Byte.to_N b).

Definition to_ushort (z : Z) : Z := z mod 2 ^ 16.
Definition to_uint (z : Z) : Z := z mod 2 ^ 32.
Definition to_ulong (z : Z) : Z := z mod 2 ^ 64.
Definition to_int (z : Z) : Z := (z + 2 ^ 31) mod 2 ^ 32 - 2 ^ 31.

(** ** Outcomes *)

(** One constructor for each [::Rf_error] call of the source, in source
    order. *)
Inductive error : Type :=
| CannotOpenFile
| NegativeFrom
| NegativeTo
| NegativeBy
| NoSyncByte
| CannotReadSync
| UnexpectedSync
| CannotReadHeaderSize
| ImpossibleHeaderSize
| CannotReadId
| CannotReadFamily
| CannotReadBytes2
| CannotReadBytes4
| HeaderSizeNot10Or12
| CannotReadDataChecksum
| CannotReadHeaderChecksum.

Inductive undefined : Type :=
| ReadPastDbuf    (* [cs] reads [data[i+1]] at or after [dbuflen] *)
| WritePastDbuf.  (* [fread] stores more bytes than [dbuf] holds *)

Inductive outcome (A : Type) : Type :=
| Ok (a : A)
| Fatal (e : error)
| Undefined (u : undefined).

Arguments Ok {A} a.
Arguments Fatal {A} e.
Arguments Undefined {A} u.

Definition bind {A B : Type} (c : outcome A) (k : A -> outcome B) : outcome B :=
  match c with
  | Ok a => k a
  | Fatal e => Fatal e
  | Undefined u => Undefined u
  end.

Definition omap {A B : Type} (f : A -> B) (c : outcome A) : outcome B :=
  bind c (fun a => Ok (f a)).

Declare Scope outcome_scope.
Delimit Scope outcome_scope with outcome.
Notation "x <- c ;; k" := (bind c (fun x => k))
  (at level 61, c at next level, right associativity) : outcome_scope.
Notation "' p <- c ;; k" := (bind c (fun x => match x with p => k end))
  (at level 61, p pattern, c at next level, right associativity) : outcome_scope.
Local Open Scope outcome_scope.

(** ** Constants of the format *)

Definition SYNC : byte := xa5.
Definition HEADER_SIZE : Z := 10.
Definition FAMILY : byte := x10.
Definition NID_ALLOWED : Z := 11.
Definition ID_ALLOWED : list Z := [21; 22; 23; 24; 26; 27; 28; 29; 30; 31; 160].

(** ** The checksum [cs] *)

(** [for (int i = 0; i < size; i += 2) checksum += data[i] + 256*data[i+1];]
    The body runs once for each even [i] below [size], that is
    [(size + 1) / 2] times; [n] counts the passes that are left.  The sum
    is formed in [int] (at most 65535 + 65535) and stored back into the
    [unsigned short].  [data] is the whole buffer the pointer refers to. *)
Fixpoint cs_loop (n : nat) (data : list byte) (i : nat) (checksum : Z) : outcome Z :=
  match n with
  | O => Ok checksum
  | S n' =>
      match nth_error data i, nth_error data (S i) with
      | Some lo, Some hi =>
          cs_loop n' data (S (S i)) (to_ushort (checksum + (ub lo + 256 * ub hi)))
      | _, _ => Undefined ReadPastDbuf
      end
  end.

Definition cs (data : list byte) (size : Z) : outcome Z :=
  cs_loop (Z.to_nat ((size + 1) / 2)) data 0 0xB58C.

(** ** File access *)

(** [fread(buf, 1, n, fp)]: the bytes obtained (all [n] of them, or what is
    left of the file) and the file after them. *)
Definition fread (n : Z) (fp : list byte) : list byte * list byte :=
  let k := Z.to_nat (Z.min n (Z.of_nat (length fp))) in
  (firstn k fp, skipn k fp).

(** [if (k != fread(buf, 1, k, fp)) ::Rf_error(...)] for k = 1, 2 and 4. *)
Definition get1 (e : error) (fp : list byte) : outcome (byte * list byte) :=
  match fp with
  | b :: fp' => Ok (b, fp')
  | _ => Fatal e
  end.

Definition get2 (e : error) (fp : list byte) : outcome (byte * byte * list byte) :=
  match fp with
  | b0 :: b1 :: fp' => Ok (b0, b1, fp')
  | _ => Fatal e
  end.

Definition get4 (e : error) (fp : list byte)
  : outcome (byte * byte * byte * byte * list byte) :=
  match fp with
  | b0 :: b1 :: b2 :: b3 :: fp' => Ok (b0, b1, b2, b3, fp')
  | _ => Fatal e
  end.

(** ** Sync locator (the [while (1)] loop around [getc]) *)

Fixpoint sync_locate (fp : list byte) (cindex : Z) : outcome (list byte * Z) :=
  match fp with
  | [] => Fatal NoSyncByte
  | c :: fp' =>
      if Byte.eqb c SYNC then Ok (fp, cindex)       (* fseek(fp, -1, SEEK_CUR) *)
      else sync_locate fp' (to_uint (cindex + 1))
  end.

(** ** Header *)

Record header : Type := mk_header {
  sync : byte;
  header_size : byte;
  id : byte;
  family : byte;
  data_size : Z;          (* unsigned long *)
  data_checksum : Z;      (* unsigned short *)
  header_checksum : Z     (* unsigned short *)
}.

(** The width of the data-size field, chosen by [header_size]. *)
Definition read_data_size (header_size : byte) (fp : list byte) : outcome (Z * list byte) :=
  if ub header_size =? 10 then
    '(b0, b1, fp) <- get2 CannotReadBytes2 fp ;;
    Ok (to_ulong (ub b0 + 256 * ub b1), fp)
  else if ub header_size =? 12 then
    '(b0, b1, b2, b3, fp) <- get4 CannotReadBytes4 fp ;;
    Ok (to_ulong (to_int (ub b0 + 256 * (ub b1 + 256 * (ub b2 + 256 * ub b3)))), fp)
  else Fatal HeaderSizeNot10Or12.

(** Lines 207 to 239: the header fields in file order. *)
Definition read_header (fp : list byte) : outcome (header * list byte) :=
  '(sync, fp) <- get1 CannotReadSync fp ;;
  if negb (Byte.eqb sync SYNC) then Fatal UnexpectedSync else
  '(header_size, fp) <- get1 CannotReadHeaderSize fp ;;
  if ub header_size <? 2 then Fatal ImpossibleHeaderSize else
  '(id, fp) <- get1 CannotReadId fp ;;
  '(family, fp) <- get1 CannotReadFamily fp ;;
  '(data_size, fp) <- read_data_size header_size fp ;;
  '(c0, c1, fp) <- get2 CannotReadDataChecksum fp ;;
  '(h0, h1, fp) <- get2 CannotReadHeaderChecksum fp ;;
  Ok (mk_header sync header_size id family data_size
        (to_ushort (ub c0 + 256 * ub c1)) (to_ushort (ub h0 + 256 * ub h1)), fp).

(** ** Scanner state *)

(** The locals of [do_ldc_ad2cp_in_file] that live across passes of the
    main loop.  [index_buf], [length_buf] and [id_buf] hold the entries
    written so far; they are enlarged before a write can fall outside
    them, so their capacity [nchunk] has no effect on what is stored and
    is left out.  [chunk] is below [to_value], hence below 2^31, when it
    is incremented, so it never wraps and is a [nat]. *)
Record state : Type := mk_state {
  fp : list byte;
  chunk : nat;
  cindex : Z;          (* unsigned int *)
  broken_end : Z;      (* int *)
  dbuflen : Z;         (* unsigned int *)
  dbuf : list byte;
  index_buf : list Z;  (* unsigned int each *)
  length_buf : list Z;
  id_buf : list Z
}.

(** [buf[chunk] = v] on a buffer whose first [chunk] entries are written. *)
Definition store (buf : list Z) (chunk : nat) (v : Z) : list Z :=
  firstn chunk buf ++ [v].

Inductive step : Type :=
| Continue (st : state)   (* end of the loop body reached *)
| Break (st : state).     (* [break] on a short payload *)

(** One pass of the body of [while (chunk < to_value)] (lines 195 to 286):
    the header, the three stores at [chunk], the payload read into [dbuf]
    (enlarged first when it is too small), the checksum, the two
    increments.  The search of [header.id] in [ID_ALLOWED] sets a local
    that is not read afterwards.  After a short read the bytes of [dbuf]
    past those read are not used again. *)
Definition scan_body (st : state) : outcome step :=
  '(h, fp1) <- read_header (fp st) ;;
  let cindex1 := to_uint (cindex st + ub (header_size h)) in
  let index_buf' := store (index_buf st) (chunk st) cindex1 in
  let length_buf' := store (length_buf st) (chunk st) (to_uint (data_size h)) in
  let id_buf' := store (id_buf st) (chunk st) (ub (id h)) in
  let dbuflen' :=
    if dbuflen st <? data_size h then to_uint (data_size h) else dbuflen st in
  let '(got, fp2) := fread (data_size h) fp1 in
  let bytes_read := Z.of_nat (length got) in
  if dbuflen' <? bytes_read then Undefined WritePastDbuf else
  (* bytes of [dbuf] after [got] keep their earlier contents *)
  let dbuf' := got ++ skipn (length got) (dbuf st) in
  if negb (bytes_read =? data_size h) then
    Ok (Break (mk_state fp2 (chunk st) cindex1 (broken_end st) dbuflen' dbuf'
                 index_buf' length_buf' id_buf'))
  else
    dbufcs <- cs dbuf' (to_ushort (data_size h)) ;;
    let broken_end' := if negb (dbufcs =? data_checksum h) then 1 else broken_end st in
    Ok (Continue (mk_state fp2 (S (chunk st)) (to_uint (cindex1 + data_size h))
                    broken_end' dbuflen' dbuf' index_buf' length_buf' id_buf')).

(** [while (chunk < to_value) { ... }].  Every pass that reaches the end of
    the body adds one to [chunk], so the guard holds [to_value - chunk]
    more times: [n] is that number. *)
Fixpoint scan_loop (n : nat) (st : state) : outcome state :=
  match n with
  | O => Ok st
  | S n' =>
      s <- scan_body st ;;
      match s with
      | Continue st' => scan_loop n' st'
      | Break st' => Ok st'
      end
  end.

(** ** Result *)

Record result : Type := mk_result {
  index : list Z;
  length_ : list Z;   (* the list element named "length" *)
  id_ : list Z;       (* the list element named "id" *)
  brokenEnd : Z
}.

(** The copy of the first [chunk] entries into [IntegerVector]s. *)
Definition export (st : state) : result :=
  mk_result (map to_int (firstn (chunk st) (index_buf st)))
            (map to_int (firstn (chunk st) (length_buf st)))
            (map to_int (firstn (chunk st) (id_buf st)))
            (broken_end st).

Definition initial_state (fp : list byte) (cindex : Z) : state :=
  mk_state fp 0 cindex 0 10000 (repeat x00 (Z.to_nat 10000)) [] [] [].

(** [file] is what [fopen] gives: [None] when the file cannot be opened,
    else its contents.  [DEBUG] only selects what is printed. *)
Definition do_ldc_ad2cp_in_file (file : option (list byte)) (from to by_ DEBUG : Z)
  : outcome result :=
  match file with
  | None => Fatal CannotOpenFile
  | Some fp =>
      if from <? 0 then Fatal NegativeFrom else
      if to <? 0 then Fatal NegativeTo else
      let to_value := to_uint to in
      if by_ <? 0 then Fatal NegativeBy else
      '(fp, cindex) <- sync_locate fp 0 ;;
      omap export (scan_loop (Z.to_nat to_value) (initial_state fp cindex))
  end.

(** ** Frames, for stating properties of streams *)

Inductive size_field : Type :=
| Size16 (d0 d1 : byte)
| Size32 (d0 d1 d2 d3 : byte).

Record frame : Type := mk_frame {
  fr_id : byte;
  fr_family : byte;
  fr_size : size_field;
  fr_data_checksum : byte * byte;
  fr_header_checksum : byte * byte;
  fr_payload : list byte
}.

Definition size_bytes (s : size_field) : list byte :=
  match s with
  | Size16 d0 d1 => [d0; d1]
  | Size32 d0 d1 d2 d3 => [d0; d1; d2; d3]
  end.

(** The little-endian value of the size field. *)
Definition size_value (s : size_field) : Z :=
  match s with
  | Size16 d0 d1 => ub d0 + 256 * ub d1
  | Size32 d0 d1 d2 d3 => ub d0 + 256 * ub d1 + 65536 * ub d2 + 16777216 * ub d3
  end.

Definition header_size_byte (s : size_field) : byte :=
  match s with
  | Size16 _ _ => x0a
  | Size32 _ _ _ _ => x0c
  end.

Definition encode_header (f : frame) : list byte :=
  [SYNC; header_size_byte (fr_size f); fr_id f; fr_family f]
    ++ size_bytes (fr_size f)
    ++ [fst (fr_data_checksum f); snd (fr_data_checksum f);
        fst (fr_header_checksum f); snd (fr_header_checksum f)].

Definition encode_frame (f : frame) : list byte :=
  encode_header f ++ fr_payload f.

Definition encode_frames (fs : list frame) : list byte :=
  concat (map encode_frame fs).

(** The size the code obtains from the size field (lines 223 and 227). *)
Definition decoded_size (s : size_field) : Z :=
  match s with
  | Size16 d0 d1 => to_ulong (ub d0 + 256 * ub d1)
  | Size32 d0 d1 d2 d3 =>
      to_ulong (to_int (ub d0 + 256 * (ub d1 + 256 * (ub d2 + 256 * ub d3))))
  end.

Definition declared_checksum (f : frame) : Z :=
  ub (fst (fr_data_checksum f)) + 256 * ub (snd (fr_data_checksum f)).

(** A frame is well formed when its payload has the length its size field
    gives, below 2^31, and that length is even, as the checksum expects. *)
Definition wf_frame (f : frame) : Prop :=
  Z.of_nat (length (fr_payload f)) = size_value (fr_size f)
  /\ size_value (fr_size f) < 2 ^ 31.

Definition even_frame (f : frame) : Prop :=
  Z.even (size_value (fr_size f)) = true.

(** The checksum as the format defines it: 0xB58C plus the little-endian
    16-bit words of the payload, modulo 2^16. *)
Fixpoint pair_sum (l : list byte) : Z :=
  match l with
  | lo :: hi :: t => (ub lo + 256 * ub hi) + pair_sum t
  | _ => 0
  end.

Definition checksum_of (payload : list byte) : Z :=
  to_ushort (0xB58C + pair_sum payload).

(** What the call [cs(dbuf, header.data_size)] covers: its [size] is an
    [unsigned short]. *)
Definition summed_part (payload : list byte) : list byte :=
  firstn (Z.to_nat (to_ushort (Z.of_nat (length payload)))) payload.

(** The state at the end of a pass over frame [f], when [cs] gave [dbufcs]
    and [rest] follows the frame in the file. *)
Definition after_frame (st : state) (f : frame) (rest : list byte) (dbufcs : Z) : state :=
  let n := size_value (fr_size f) in
  let cindex1 := to_uint (cindex st + ub (header_size_byte (fr_size f))) in
  mk_state rest (S (chunk st)) (to_uint (cindex1 + n))
    (if negb (dbufcs =? to_ushort (declared_checksum f)) then 1 else broken_end st)
    (if dbuflen st <? n then to_uint n else dbuflen st)
    (fr_payload f ++ skipn (length (fr_payload f)) (dbuf st))
    (store (index_buf st) (chunk st) cindex1)
    (store (length_buf st) (chunk st) (to_uint n))
    (store (id_buf st) (chunk st) (ub (fr_id f))).

(** The state after passes over the even-length frames [fs]. *)
Fixpoint run_frames (st : state) (fs : list frame) (rest : list byte) : state :=
  match fs with
  | [] => st
  | f :: fs' =>
      run_frames
        (after_frame st f (encode_frames fs' ++ rest)
           (checksum_of (summed_part (fr_payload f))))
        fs' rest
  end.

(** Payload offsets of the frames [fs] when the first header is at [c]. *)
Fixpoint offsets (c : Z) (fs : list frame) : list Z :=
  match fs with
  | [] => []
  | f :: fs' =>
      let o := to_uint (c + ub (header_size_byte (fr_size f))) in
      o :: offsets (to_uint (o + size_value (fr_size f))) fs'
  end.

Definition sizes (fs : list frame) : list Z :=
  map (fun f => to_uint (size_value (fr_size f))) fs.

Definition ids (fs : list frame) : list Z :=
  map (fun f => ub (fr_id f)) fs.

(** The flag after passes over the even-length frames [fs]. *)
Definition checksum_differs (f : frame) : bool :=
  negb (checksum_of (summed_part (fr_payload f)) =? to_ushort (declared_checksum f)).

Fixpoint flag_after (b : Z) (fs : list frame) : Z :=
  match fs with
  | [] => b
  | f :: fs' => flag_after (if checksum_differs f then 1 else b) fs'
  end.

(** Payload offsets and lengths of [fs] as file positions, when the first
    header is at position [c]. *)
Fixpoint payload_starts (c : Z) (fs : list frame) : list Z :=
  match fs with
  | [] => []
  | f :: fs' =>
      let o := c + ub (header_size_byte (fr_size f)) in
      o :: payload_starts (o + size_value (fr_size f)) fs'
  end.

Definition payload_lengths (fs : list frame) : list Z :=
  map (fun f => size_value (fr_size f)) fs.





(** The buffers hold exactly the [chunk] entries written so far. *)
Definition bufs_full (st : state) : Prop :=
  length (index_buf st) = chunk st
  /\ length (length_buf st) = chunk st
  /\ length (id_buf st) = chunk st.

(** A header cannot be decoded from [fp]: the header-size byte is missing
    or is neither 10 nor 12, or the file ends before the header does. *)
Definition bad_header (fp : list byte) : Prop :=
  match fp with
  | _ :: hs :: _ =>
      (ub hs <> 10 /\ ub hs <> 12) \/ Z.of_nat (length fp) < ub hs
  | _ => True
  end.

(** ** Example inputs *)

(** Two frames of 4 and 2 payload bytes with the checksums of their
    payloads. *)
Definition frame_a : frame :=
  mk_frame x15 x10 (Size16 x04 x00) (x90, xbb) (x00, x00) [x01; x02; x03; x04].

Definition frame_b : frame :=
  mk_frame x16 x10 (Size32 x02 x00 x00 x00) (x8c, xb5) (x00, x00) [x00; x00].

(** [frame_a] with another checksum in its header. *)
Definition frame_c : frame :=
  mk_frame x15 x10 (Size16 x04 x00) (x96, xbb) (x00, x00) [x01; x02; x03; x04].

(** [frame_a], then [frame_b] cut one byte before its end. *)
Definition truncated_stream : list byte :=
  encode_frame frame_a ++ encode_header frame_b ++ [x00].

(** A frame with a payload of 65536 bytes 0x01; its header holds the
    checksum of that payload, 0x358C. *)
Definition long_frame : frame :=
  mk_frame x15 x10 (Size32 x00 x00 x01 x00) (x8c, x35) (x00, x00)
    (repeat x01 (Z.to_nat 65536)).

(** A 12-byte header whose size field is 0x80000000. *)
Definition header_2G : list byte :=
  [xa5; x0c; x15; x10; x00; x00; x00; x80; x8c; xb5; x00; x00].

(** The same header followed by the 2^31 payload bytes it announces. *)
Definition frame_2G : frame :=
  mk_frame x15 x10 (Size32 x00 x00 x00 x80) (x8c, xb5) (x00, x00)
    (repeat x00 (Z.to_nat 2147483648)).




(** ** Further notions for properties of whole scans *)

(** Two frames that differ at most in the family byte and in the header
    checksum. *)
Definition same_checked_fields (f f' : frame) : Prop :=
  fr_id f = fr_id f' /\ fr_size f = fr_size f'
  /\ fr_data_checksum f = fr_data_checksum f' /\ fr_payload f = fr_payload f'.

(** [l] with the byte at position [k] replaced by [b]. *)
Definition set_byte (k : nat) (b : byte) (l : list byte) : list byte :=
  firstn k l ++ b :: skipn (S k) l.

Definition with_payload (f : frame) (payload : list byte) : frame :=
  mk_frame (fr_id f) (fr_family f) (fr_size f) (fr_data_checksum f)
    (fr_header_checksum f) payload.

(** A frame of three payload bytes, and one of 10001. *)
Definition frame_odd : frame :=
  mk_frame x15 x10 (Size16 x03 x00) (x8f, xba) (x00, x00) [x01; x02; x03].

(** A frame of 10002 payload bytes, two more than the first [dbuf] holds. *)
Definition frame_10002 : frame :=
  mk_frame x15 x10 (Size16 x12 x27) (x8c, xb5) (x00, x00)
    (repeat x00 (Z.to_nat 10002)).

Definition frame_odd_long : frame :=
  mk_frame x15 x10 (Size16 x11 x27) (x8c, xb5) (x00, x00)
    (repeat x00 (Z.to_nat 10001)).

(** * Properties *)

(** The three parameter checks at the start of [do_ldc_ad2cp_in_file], for
    parameters known not to be negative. *)
Ltac pass_parameter_checks :=
  unfold do_ldc_ad2cp_in_file;
  repeat match goal with
         | |- context [if ?a <? 0 then _ else _] =>
             let E := fresh "E" in destruct (a <? 0) eqn:E; [lia|]
         end.

(** ** Bytes and conversions *)

Lemma ub_range (b : byte) : 0 <= ub b < 256.
Proof.
  unfold ub. pose proof (Byte.to_N_bounded b). lia.
Qed.

Lemma eqb_SYNC_true (b : byte) : Byte.eqb b SYNC = true <-> b = SYNC.
Proof.
  split; [apply Byte.byte_dec_bl | apply Byte.byte_dec_lb].
Qed.

Lemma eqb_SYNC_false (b : byte) : Byte.eqb b SYNC = false <-> b <> SYNC.
Proof.
  split.
  - apply Byte.eqb_false.
  - intros H. destruct (Byte.eqb b SYNC) eqn:E; [|reflexivity].
    apply eqb_SYNC_true in E. contradiction.
Qed.

Lemma to_ushort_small z : 0 <= z < 2 ^ 16 -> to_ushort z = z.
Proof. intros H. unfold to_ushort. apply Z.mod_small; lia. Qed.

Lemma to_uint_small z : 0 <= z < 2 ^ 32 -> to_uint z = z.
Proof. intros H. unfold to_uint. apply Z.mod_small; lia. Qed.

Lemma to_ulong_small z : 0 <= z < 2 ^ 64 -> to_ulong z = z.
Proof. intros H. unfold to_ulong. apply Z.mod_small; lia. Qed.

Lemma to_int_small z : - 2 ^ 31 <= z < 2 ^ 31 -> to_int z = z.
Proof. intros H. unfold to_int. rewrite Z.mod_small; lia. Qed.

Lemma to_ushort_range z : 0 <= to_ushort z < 2 ^ 16.
Proof. unfold to_ushort. apply Z.mod_pos_bound. lia. Qed.

Lemma to_uint_range z : 0 <= to_uint z < 2 ^ 32.
Proof. unfold to_uint. apply Z.mod_pos_bound. lia. Qed.

Lemma to_ushort_add_l a b : to_ushort (to_ushort a + b) = to_ushort (a + b).
Proof. unfold to_ushort. apply Zplus_mod_idemp_l. Qed.

Lemma to_uint_add_l a b : to_uint (to_uint a + b) = to_uint (a + b).
Proof. unfold to_uint. apply Zplus_mod_idemp_l. Qed.

Lemma size_value_range (s : size_field) : 0 <= size_value s < 2 ^ 32.
Proof.
  destruct s as [d0 d1 | d0 d1 d2 d3]; cbn [size_value].
  - pose proof (ub_range d0). pose proof (ub_range d1). lia.
  - pose proof (ub_range d0). pose proof (ub_range d1).
    pose proof (ub_range d2). pose proof (ub_range d3). lia.
Qed.

Lemma decoded_size_small (s : size_field) :
  size_value s < 2 ^ 31 -> decoded_size s = size_value s.
Proof.
  destruct s as [d0 d1 | d0 d1 d2 d3]; cbn [size_value decoded_size]; intros H.
  - pose proof (ub_range d0). pose proof (ub_range d1).
    apply to_ulong_small. lia.
  - pose proof (ub_range d0). pose proof (ub_range d1).
    pose proof (ub_range d2). pose proof (ub_range d3).
    replace (ub d0 + 256 * (ub d1 + 256 * (ub d2 + 256 * ub d3)))
      with (ub d0 + 256 * ub d1 + 65536 * ub d2 + 16777216 * ub d3) by lia.
    rewrite to_int_small by lia. apply to_ulong_small. lia.
Qed.

(** A size field of 2^31 or more is decoded to a value of 2^64 - 2^31 or
    more: the sum of line 227 is formed in [int]. *)
Lemma decoded_size_large (s : size_field) :
  2 ^ 31 <= size_value s -> decoded_size s = 2 ^ 64 - 2 ^ 32 + size_value s.
Proof.
  destruct s as [d0 d1 | d0 d1 d2 d3]; cbn [size_value decoded_size]; intros H.
  - pose proof (ub_range d0). pose proof (ub_range d1). lia.
  - pose proof (ub_range d0). pose proof (ub_range d1).
    pose proof (ub_range d2). pose proof (ub_range d3).
    replace (ub d0 + 256 * (ub d1 + 256 * (ub d2 + 256 * ub d3)))
      with (ub d0 + 256 * ub d1 + 65536 * ub d2 + 16777216 * ub d3) by lia.
    set (v := ub d0 + 256 * ub d1 + 65536 * ub d2 + 16777216 * ub d3) in *.
    unfold to_int, to_ulong.
    replace (v + 2 ^ 31) with ((v - 2 ^ 31) + 1 * 2 ^ 32) by lia.
    rewrite Z.mod_add by lia. rewrite (Z.mod_small (v - 2 ^ 31)) by lia.
    replace (v - 2 ^ 31 - 2 ^ 31) with ((2 ^ 64 - 2 ^ 32 + v) + (-1) * 2 ^ 64) by lia.
    rewrite Z.mod_add by lia. apply Z.mod_small. lia.
Qed.

(** ** The checksum *)

Lemma skipn_two (data : list byte) : forall (i : nat) (lo hi : byte),
  nth_error data i = Some lo -> nth_error data (S i) = Some hi ->
  skipn i data = lo :: hi :: skipn (S (S i)) data.
Proof.
  induction data as [|b data IH]; intros i lo hi Hlo Hhi.
  - destruct i; discriminate.
  - destruct i as [|i].
    + simpl in Hlo. injection Hlo as ->.
      destruct data as [|b' data]; [discriminate|].
      simpl in Hhi. injection Hhi as ->. reflexivity.
    + simpl in Hlo. change (nth_error (b :: data) (S (S i)))
        with (nth_error data (S i)) in Hhi.
      change (skipn (S i) (b :: data)) with (skipn i data).
      change (skipn (S (S (S i))) (b :: data)) with (skipn (S (S i)) data).
      now apply IH.
Qed.

Lemma cs_loop_pairs (data : list byte) : forall (k i : nat) (c : Z),
  0 <= c < 2 ^ 16 ->
  (i + 2 * k <= length data)%nat ->
  cs_loop k data i c = Ok (to_ushort (c + pair_sum (firstn (2 * k) (skipn i data)))).
Proof.
  induction k as [|k IH]; intros i c Hc Hlen.
  - simpl. rewrite Z.add_0_r, to_ushort_small; auto.
  - destruct (nth_error data i) as [lo|] eqn:Elo.
    2:{ apply nth_error_None in Elo. lia. }
    destruct (nth_error data (S i)) as [hi|] eqn:Ehi.
    2:{ apply nth_error_None in Ehi. lia. }
    cbn [cs_loop]. rewrite Elo, Ehi.
    rewrite IH; [| apply to_ushort_range | lia].
    rewrite (skipn_two data i lo hi Elo Ehi).
    replace (2 * S k)%nat with (S (S (2 * k))) by lia.
    cbn [firstn pair_sum].
    rewrite to_ushort_add_l. f_equal. f_equal. lia.
Qed.

Lemma even_to_ushort (n : Z) : Z.even n = true -> Z.even (to_ushort n) = true.
Proof.
  intros H. apply Z.even_spec in H. destruct H as [m Hm].
  apply Z.even_spec. exists (m - 32768 * (n / 2 ^ 16)).
  unfold to_ushort. pose proof (Z.div_mod n (2 ^ 16)). lia.
Qed.

(** On a buffer that starts with an even-length payload, [cs] called with
    the payload's length is defined and sums the part its 16-bit [size]
    covers. *)
Lemma cs_payload (payload tail : list byte) :
  Z.even (Z.of_nat (length payload)) = true ->
  cs (payload ++ tail) (to_ushort (Z.of_nat (length payload)))
  = Ok (checksum_of (summed_part payload)).
Proof.
  intros Heven. unfold cs, checksum_of, summed_part.
  set (size := to_ushort (Z.of_nat (length payload))).
  assert (Hsize : 0 <= size < 2 ^ 16) by apply to_ushort_range.
  assert (Hle : size <= Z.of_nat (length payload)).
  { unfold size, to_ushort. apply Z.mod_le; lia. }
  assert (He : Z.even size = true) by (apply even_to_ushort; exact Heven).
  apply Z.even_spec in He. destruct He as [j Hj].
  assert (Hk : (2 * Z.to_nat ((size + 1) / 2))%nat = Z.to_nat size).
  { replace ((size + 1) / 2) with j.
    - lia.
    - rewrite Hj. replace (2 * j + 1) with (1 + j * 2) by lia.
      rewrite Z.div_add by lia. reflexivity. }
  rewrite cs_loop_pairs.
  - rewrite Hk. cbn [skipn]. rewrite firstn_app.
    replace (Z.to_nat size - length payload)%nat with 0%nat by lia.
    cbn [firstn]. rewrite app_nil_r. reflexivity.
  - lia.
  - rewrite Hk, length_app. lia.
Qed.

(** ** Reading a frame *)

Lemma fread_exact (payload rest : list byte) :
  fread (Z.of_nat (length payload)) (payload ++ rest) = (payload, rest).
Proof.
  unfold fread. rewrite length_app.
  rewrite Z.min_l by lia. rewrite Nat2Z.id.
  rewrite firstn_app, skipn_app, Nat.sub_diag, firstn_all, skipn_all.
  cbn [firstn skipn]. rewrite app_nil_r. reflexivity.
Qed.

Lemma read_header_frame (f : frame) (rest : list byte) :
  read_header (encode_header f ++ rest)
  = Ok (mk_header SYNC (header_size_byte (fr_size f)) (fr_id f) (fr_family f)
          (decoded_size (fr_size f))
          (to_ushort (declared_checksum f))
          (to_ushort (ub (fst (fr_header_checksum f))
                      + 256 * ub (snd (fr_header_checksum f)))),
        rest).
Proof.
  destruct f as [i fam [d0 d1 | d0 d1 d2 d3] [c0 c1] [h0 h1] payload]; reflexivity.
Qed.

(** A pass of the loop body over a well-formed frame reaches the end of
    the body, whatever the checksum. *)
Lemma scan_body_frame (st : state) (f : frame) (rest : list byte) :
  fp st = encode_frame f ++ rest ->
  wf_frame f ->
  scan_body st
  = (dbufcs <- cs (fr_payload f ++ skipn (length (fr_payload f)) (dbuf st))
                 (to_ushort (size_value (fr_size f))) ;;
     Ok (Continue (after_frame st f rest dbufcs))).
Proof.
  intros Hfp [Hlen Hsmall]. unfold scan_body.
  rewrite Hfp. unfold encode_frame. rewrite <- app_assoc.
  rewrite read_header_frame. cbn [bind data_size header_size id data_checksum].
  rewrite (decoded_size_small (fr_size f) Hsmall). rewrite <- Hlen.
  rewrite fread_exact.
  assert (Hroom : ((if dbuflen st <? Z.of_nat (length (fr_payload f))
                    then to_uint (Z.of_nat (length (fr_payload f)))
                    else dbuflen st) <? Z.of_nat (length (fr_payload f))) = false).
  { destruct (dbuflen st <? Z.of_nat (length (fr_payload f))) eqn:E.
    - rewrite to_uint_small by lia. apply Z.ltb_irrefl.
    - exact E. }
  rewrite Hroom, Z.eqb_refl. cbn [negb].
  unfold after_frame. rewrite <- Hlen. reflexivity.
Qed.

Lemma scan_body_even_frame (st : state) (f : frame) (rest : list byte) :
  fp st = encode_frame f ++ rest ->
  wf_frame f -> even_frame f ->
  scan_body st
  = Ok (Continue (after_frame st f rest (checksum_of (summed_part (fr_payload f))))).
Proof.
  intros Hfp Hwf Heven. rewrite (scan_body_frame st f rest Hfp Hwf).
  destruct Hwf as [Hlen _]. unfold even_frame in Heven.
  rewrite <- Hlen in *. rewrite cs_payload by exact Heven. reflexivity.
Qed.

(** ** Passes over a run of frames *)

Lemma store_full (buf : list Z) (chunk : nat) (v : Z) :
  length buf = chunk -> store buf chunk v = buf ++ [v].
Proof.
  intros H. unfold store. rewrite <- H, firstn_all. reflexivity.
Qed.

Lemma encode_frames_cons (f : frame) (fs : list frame) :
  encode_frames (f :: fs) = encode_frame f ++ encode_frames fs.
Proof. reflexivity. Qed.

Lemma scan_loop_frames (fs : list frame) : forall (st : state) (rest : list byte) (n : nat),
  fp st = encode_frames fs ++ rest ->
  Forall wf_frame fs -> Forall even_frame fs ->
  scan_loop (length fs + n) st = scan_loop n (run_frames st fs rest).
Proof.
  induction fs as [|f fs IH]; intros st rest n Hfp Hwf Heven.
  - reflexivity.
  - inversion Hwf as [|? ? Hwf1 Hwf2]; subst.
    inversion Heven as [|? ? Hev1 Hev2]; subst.
    rewrite encode_frames_cons, <- app_assoc in Hfp.
    cbn [length Nat.add scan_loop run_frames].
    rewrite (scan_body_even_frame st f _ Hfp Hwf1 Hev1). cbn [bind].
    apply IH; auto.
Qed.

Lemma after_frame_full (st : state) (f : frame) (rest : list byte) (c : Z) :
  bufs_full st -> bufs_full (after_frame st f rest c).
Proof.
  intros (H1 & H2 & H3). unfold bufs_full, after_frame. cbn.
  rewrite !store_full by assumption. rewrite !length_app. cbn. lia.
Qed.

Lemma run_frames_chunk (fs : list frame) : forall st rest,
  chunk (run_frames st fs rest) = (chunk st + length fs)%nat.
Proof.
  induction fs as [|f fs IH]; intros st rest; cbn [run_frames length].
  - lia.
  - rewrite IH. cbn. lia.
Qed.

Lemma run_frames_broken_end (fs : list frame) : forall st rest,
  broken_end (run_frames st fs rest) = flag_after (broken_end st) fs.
Proof.
  induction fs as [|f fs IH]; intros st rest; cbn [run_frames flag_after].
  - reflexivity.
  - rewrite IH. reflexivity.
Qed.

Lemma run_frames_bufs (fs : list frame) : forall st rest,
  bufs_full st ->
  index_buf (run_frames st fs rest) = index_buf st ++ offsets (cindex st) fs
  /\ length_buf (run_frames st fs rest) = length_buf st ++ sizes fs
  /\ id_buf (run_frames st fs rest) = id_buf st ++ ids fs.
Proof.
  induction fs as [|f fs IH]; intros st rest Hfull; cbn [run_frames offsets sizes ids map].
  - rewrite !app_nil_r. auto.
  - destruct (IH (after_frame st f (encode_frames fs ++ rest)
                    (checksum_of (summed_part (fr_payload f)))) rest)
      as (Hi & Hl & Hd).
    { apply after_frame_full, Hfull. }
    rewrite Hi, Hl, Hd. destruct Hfull as (H1 & H2 & H3).
    cbn [after_frame index_buf length_buf id_buf cindex].
    rewrite !store_full by assumption. rewrite <- !app_assoc. auto.
Qed.

Lemma offsets_length (fs : list frame) : forall c, length (offsets c fs) = length fs.
Proof.
  induction fs as [|f fs IH]; intros c; cbn [offsets length]; auto.
Qed.

(** The result after passes over [fs] from the initial state. *)
Lemma export_run_frames (fs : list frame) (s rest : list byte) (c : Z) :
  export (run_frames (initial_state s c) fs rest)
  = mk_result (map to_int (offsets c fs)) (map to_int (sizes fs))
              (map to_int (ids fs)) (flag_after 0 fs).
Proof.
  unfold export. rewrite run_frames_chunk, run_frames_broken_end.
  destruct (run_frames_bufs fs (initial_state s c) rest) as (Hi & Hl & Hd).
  { repeat split. }
  rewrite Hi, Hl, Hd. cbn [initial_state index_buf length_buf id_buf chunk
                            broken_end cindex app Nat.add].
  rewrite <- (offsets_length fs c) at 1. rewrite firstn_all.
  unfold sizes, ids.
  rewrite <- (length_map (fun f => to_uint (size_value (fr_size f))) fs) at 1.
  rewrite firstn_all.
  rewrite <- (length_map (fun f => ub (fr_id f)) fs) at 1.
  rewrite firstn_all. reflexivity.
Qed.

(** ** The sync locator *)

Lemma sync_locate_skip (p : list byte) : forall (s : list byte) (c : Z),
  Forall (fun b => b <> SYNC) p ->
  0 <= c < 2 ^ 32 ->
  sync_locate (p ++ s) c = sync_locate s (to_uint (c + Z.of_nat (length p))).
Proof.
  induction p as [|b p IH]; intros s c Hp Hc.
  - cbn [app length]. rewrite Z.add_0_r, to_uint_small by exact Hc. reflexivity.
  - inversion Hp as [|? ? Hb Hp']; subst.
    cbn [app sync_locate]. apply eqb_SYNC_false in Hb. rewrite Hb.
    rewrite IH; [| exact Hp' | apply to_uint_range].
    rewrite to_uint_add_l. apply (f_equal (sync_locate s)), (f_equal to_uint).
    cbn [length]. lia.
Qed.

Lemma sync_locate_none (s : list byte) : forall c,
  Forall (fun b => b <> SYNC) s -> sync_locate s c = Fatal NoSyncByte.
Proof.
  induction s as [|b s IH]; intros c Hs.
  - reflexivity.
  - inversion Hs as [|? ? Hb Hs']; subst.
    cbn [sync_locate]. apply eqb_SYNC_false in Hb. rewrite Hb. apply IH, Hs'.
Qed.

Lemma sync_locate_inv (s : list byte) : forall (c : Z) (s' : list byte) (c' : Z),
  0 <= c < 2 ^ 32 ->
  sync_locate s c = Ok (s', c') ->
  exists p t, s = p ++ s' /\ s' = SYNC :: t /\ Forall (fun b => b <> SYNC) p
              /\ c' = to_uint (c + Z.of_nat (length p)).
Proof.
  induction s as [|b s IH]; intros c s' c' Hc H.
  - discriminate.
  - cbn [sync_locate] in H. destruct (Byte.eqb b SYNC) eqn:E.
    + injection H as <- <-. apply eqb_SYNC_true in E. subst b.
      exists [], s. cbn [app length]. rewrite Z.add_0_r, to_uint_small by exact Hc.
      auto.
    + apply IH in H; [| apply to_uint_range].
      destruct H as (p & t & -> & -> & Hp & ->).
      exists (b :: p), t. apply eqb_SYNC_false in E.
      cbn [app length]. rewrite to_uint_add_l.
      repeat split; auto. apply (f_equal to_uint). lia.
Qed.

Lemma encode_frames_head (f : frame) (fs : list frame) (rest : list byte) :
  exists t, encode_frames (f :: fs) ++ rest = SYNC :: t.
Proof.
  eexists. reflexivity.
Qed.

(** Scanning a file made of bytes without SYNC, then frames and a rest
    (a SYNC byte comes first after the skipped bytes), with a limit of at
    least the number of frames: the frames are passed and the loop goes on
    with what is left of the limit. *)
Lemma do_ldc_frames (p : list byte) (fs : list frame) (rest : list byte)
    (from to by_ DEBUG : Z) (n : nat) :
  Forall (fun b => b <> SYNC) p ->
  (exists t, encode_frames fs ++ rest = SYNC :: t) ->
  Forall wf_frame fs -> Forall even_frame fs ->
  0 <= from -> 0 <= by_ ->
  to = Z.of_nat (length fs + n) -> to < 2 ^ 32 ->
  do_ldc_ad2cp_in_file (Some (p ++ encode_frames fs ++ rest)) from to by_ DEBUG
  = omap export
      (scan_loop n
         (run_frames
            (initial_state (encode_frames fs ++ rest) (to_uint (Z.of_nat (length p))))
            fs rest)).
Proof.
  intros Hp Hne Hwf Heven Hfrom Hby Hto Hlt.
  pass_parameter_checks.
  rewrite sync_locate_skip by (auto; lia). cbn [Z.add].
  destruct Hne as [t Ht].
  rewrite Ht. cbn [sync_locate]. replace (Byte.eqb SYNC SYNC) with true by reflexivity.
  cbn [bind]. rewrite <- Ht.
  rewrite to_uint_small by lia. rewrite Hto, Nat2Z.id.
  rewrite (scan_loop_frames fs _ rest n); auto.
Qed.

(** ** What a completed pass has read *)

Lemma ub_inj (a b : byte) : ub a = ub b -> a = b.
Proof.
  unfold ub. intros H. apply N2Z.inj in H.
  pose proof (Byte.of_to_N a) as Ha. pose proof (Byte.of_to_N b) as Hb.
  rewrite H in Ha. congruence.
Qed.

Lemma read_header_inv (fp0 fp1 : list byte) (h : header) :
  read_header fp0 = Ok (h, fp1) ->
  exists f, fr_payload f = []
    /\ fp0 = encode_header f ++ fp1
    /\ header_size h = header_size_byte (fr_size f)
    /\ id h = fr_id f
    /\ data_size h = decoded_size (fr_size f)
    /\ data_checksum h = to_ushort (declared_checksum f).
Proof.
  unfold read_header. intros H.
  destruct fp0 as [|s0 fp0]; [discriminate|]. cbn [get1 bind] in H.
  destruct (Byte.eqb s0 SYNC) eqn:Es; cbn [negb] in H; [|discriminate].
  apply eqb_SYNC_true in Es. subst s0.
  destruct fp0 as [|hs fp0]; [discriminate|]. cbn [get1 bind] in H.
  destruct (ub hs <? 2); [discriminate|].
  destruct fp0 as [|i fp0]; [discriminate|]. cbn [get1 bind] in H.
  destruct fp0 as [|fam fp0]; [discriminate|]. cbn [get1 bind] in H.
  unfold read_data_size in H.
  destruct (ub hs =? 10) eqn:E10; [|destruct (ub hs =? 12) eqn:E12].
  - apply Z.eqb_eq in E10. apply (ub_inj hs x0a) in E10. subst hs.
    destruct fp0 as [|d0 [|d1 fp0]]; try discriminate. cbn [get2 bind] in H.
    destruct fp0 as [|c0 [|c1 fp0]]; try discriminate. cbn [get2 bind] in H.
    destruct fp0 as [|h0 [|h1 fp0]]; try discriminate. cbn [get2 bind] in H.
    injection H as <- <-.
    exists (mk_frame i fam (Size16 d0 d1) (c0, c1) (h0, h1) []).
    repeat split.
  - apply Z.eqb_eq in E12. apply (ub_inj hs x0c) in E12. subst hs.
    destruct fp0 as [|d0 [|d1 [|d2 [|d3 fp0]]]]; try discriminate.
    cbn [get4 bind] in H.
    destruct fp0 as [|c0 [|c1 fp0]]; try discriminate. cbn [get2 bind] in H.
    destruct fp0 as [|h0 [|h1 fp0]]; try discriminate. cbn [get2 bind] in H.
    injection H as <- <-.
    exists (mk_frame i fam (Size32 d0 d1 d2 d3) (c0, c1) (h0, h1) []).
    repeat split.
  - discriminate.
Qed.

Lemma fread_split (n : Z) (fp0 got fp1 : list byte) :
  fread n fp0 = (got, fp1) ->
  fp0 = got ++ fp1 /\ Z.of_nat (length got) = Z.max 0 (Z.min n (Z.of_nat (length fp0))).
Proof.
  unfold fread. intros H. injection H as <- <-. split.
  - symmetry. apply firstn_skipn.
  - rewrite length_firstn. lia.
Qed.

Lemma encode_header_length (f : frame) :
  Z.of_nat (length (encode_header f)) = ub (header_size_byte (fr_size f)).
Proof.
  destruct f as [i fam [d0 d1 | d0 d1 d2 d3] dck hck payload]; reflexivity.
Qed.

Lemma header_size_10_or_12 (s : size_field) :
  ub (header_size_byte s) = 10 \/ ub (header_size_byte s) = 12.
Proof.
  destruct s; [left | right]; reflexivity.
Qed.

(** A pass that reaches the end of the body on a file of fewer than 2^31
    bytes has read a well-formed frame. *)
Lemma scan_body_continue_inv (st st' : state) :
  Z.of_nat (length (fp st)) < 2 ^ 31 ->
  scan_body st = Ok (Continue st') ->
  exists f c, wf_frame f
    /\ fp st = encode_frame f ++ fp st'
    /\ st' = after_frame st f (fp st') c.
Proof.
  intros Hlen H.
  assert (Hframe : exists f rest, wf_frame f /\ fp st = encode_frame f ++ rest).
  { unfold scan_body in H.
    destruct (read_header (fp st)) as [[h fp1] | |] eqn:EH; try discriminate.
    cbn [bind] in H.
    destruct (fread (data_size h) fp1) as [got fp2] eqn:EF.
    destruct (_ <? Z.of_nat (length got)); [discriminate|].
    destruct (Z.of_nat (length got) =? data_size h) eqn:Eall;
      cbn [negb] in H; [|discriminate].
    apply Z.eqb_eq in Eall.
    apply read_header_inv in EH.
    destruct EH as (f0 & Hp0 & Hfp & _ & _ & Hds & _).
    apply fread_split in EF. destruct EF as [Hfp1 Hgot].
    destruct f0 as [i fam sz dck hck p0]. cbn [fr_payload fr_size] in *. subst p0.
    exists (mk_frame i fam sz dck hck got), fp2.
    assert (Hbound : Z.of_nat (length got) < 2 ^ 31).
    { rewrite Hfp, Hfp1, !length_app in Hlen. lia. }
    assert (Hsmall : size_value sz < 2 ^ 31).
    { destruct (Z.lt_ge_cases (size_value sz) (2 ^ 31)) as [Hs | Hs]; [exact Hs|].
      pose proof (decoded_size_large sz Hs). pose proof (size_value_range sz). lia. }
    split.
    - split; cbn [fr_payload fr_size]; [|exact Hsmall].
      rewrite <- (decoded_size_small sz Hsmall). congruence.
    - unfold encode_frame. cbn [fr_payload]. rewrite <- app_assoc.
      rewrite Hfp, Hfp1. reflexivity. }
  destruct Hframe as (f & rest & Hwf & Hfp).
  rewrite (scan_body_frame st f rest Hfp Hwf) in H.
  destruct (cs _ _) as [c | |]; try discriminate.
  cbn [bind] in H. injection H as <-.
  exists f, c. auto.
Qed.

(** What a pass writes, whatever it reads. *)
Lemma scan_body_shape (st : state) (s : step) :
  scan_body st = Ok s ->
  exists o l i,
    match s with
    | Continue st' =>
        chunk st' = S (chunk st)
        /\ (broken_end st' = broken_end st \/ broken_end st' = 1)
        /\ index_buf st' = store (index_buf st) (chunk st) o
        /\ length_buf st' = store (length_buf st) (chunk st) l
        /\ id_buf st' = store (id_buf st) (chunk st) i
    | Break st' =>
        chunk st' = chunk st
        /\ broken_end st' = broken_end st
        /\ index_buf st' = store (index_buf st) (chunk st) o
        /\ length_buf st' = store (length_buf st) (chunk st) l
        /\ id_buf st' = store (id_buf st) (chunk st) i
    end.
Proof.
  unfold scan_body. intros H.
  destruct (read_header (fp st)) as [[h fp1] | |]; try discriminate.
  cbn [bind] in H.
  destruct (fread (data_size h) fp1) as [got fp2].
  destruct (_ <? Z.of_nat (length got)); [discriminate|].
  destruct (negb (Z.of_nat (length got) =? data_size h)).
  - injection H as <-. do 3 eexists. cbn. repeat split.
  - destruct (cs _ _) as [c | |]; try discriminate.
    cbn [bind] in H. injection H as <-. do 3 eexists. cbn.
    repeat split. destruct (negb _); auto.
Qed.

Lemma firstn_store (buf : list Z) (chunk : nat) (v : Z) :
  length buf = chunk -> firstn chunk (store buf chunk v) = buf.
Proof.
  intros H. rewrite store_full by exact H. rewrite firstn_app.
  rewrite <- H, firstn_all, Nat.sub_diag. cbn [firstn]. apply app_nil_r.
Qed.

(** The entry written by a pass that ends in [break] is not exported. *)
Lemma scan_body_break_export (st st' : state) :
  bufs_full st -> scan_body st = Ok (Break st') -> export st' = export st.
Proof.
  intros (H1 & H2 & H3) H. apply scan_body_shape in H.
  destruct H as (o & l & i & Hc & Hb & Hi & Hl & Hd).
  unfold export. rewrite Hc, Hb, Hi, Hl, Hd.
  rewrite !firstn_store by assumption.
  rewrite <- H1 at 1. rewrite <- H2 at 1. rewrite <- H3 at 1.
  rewrite !firstn_all. reflexivity.
Qed.

Lemma export_full (st : state) :
  bufs_full st ->
  export st = mk_result (map to_int (index_buf st)) (map to_int (length_buf st))
                (map to_int (id_buf st)) (broken_end st).
Proof.
  intros (H1 & H2 & H3). unfold export.
  rewrite <- H1 at 1. rewrite <- H2 at 1. rewrite <- H3 at 1.
  rewrite !firstn_all. reflexivity.
Qed.

(** ** What a returning loop has read *)

Lemma after_frame_bufs (st : state) (f : frame) (rest : list byte) (c : Z) :
  bufs_full st ->
  index_buf (after_frame st f rest c)
    = index_buf st ++ [to_uint (cindex st + ub (header_size_byte (fr_size f)))]
  /\ length_buf (after_frame st f rest c)
    = length_buf st ++ [to_uint (size_value (fr_size f))]
  /\ id_buf (after_frame st f rest c) = id_buf st ++ [ub (fr_id f)].
Proof.
  intros (H1 & H2 & H3). cbn [after_frame index_buf length_buf id_buf].
  rewrite !store_full by assumption. auto.
Qed.

Lemma scan_loop_inv (n : nat) : forall (st st' : state),
  bufs_full st ->
  Z.of_nat (length (fp st)) < 2 ^ 31 ->
  scan_loop n st = Ok st' ->
  exists fs tail,
    Forall wf_frame fs
    /\ fp st = encode_frames fs ++ tail
    /\ (length fs <= n)%nat
    /\ index (export st') = map to_int (index_buf st ++ offsets (cindex st) fs)
    /\ length_ (export st') = map to_int (length_buf st ++ sizes fs)
    /\ id_ (export st') = map to_int (id_buf st ++ ids fs).
Proof.
  induction n as [|n IH]; intros st st' Hfull Hlen H.
  - injection H as <-. exists [], (fp st).
    rewrite (export_full st Hfull). cbn [offsets sizes ids map index length_ id_].
    rewrite !app_nil_r. repeat split; auto.
  - cbn [scan_loop] in H.
    destruct (scan_body st) as [[st1 | st1] | |] eqn:EB; try discriminate;
      cbn [bind] in H.
    + destruct (scan_body_continue_inv st st1 Hlen EB) as (f & c & Hwf & Hfp & Hst1).
      assert (Hfull1 : bufs_full st1) by (rewrite Hst1; apply after_frame_full, Hfull).
      assert (Hlen1 : Z.of_nat (length (fp st1)) < 2 ^ 31).
      { rewrite Hfp, length_app in Hlen. lia. }
      destruct (IH st1 st' Hfull1 Hlen1 H) as (fs & tail & Hfs & Hfp1 & Hn & Hi & Hl & Hd).
      exists (f :: fs), tail.
      destruct (after_frame_bufs st f (fp st1) c Hfull) as (Bi & Bl & Bd).
      rewrite <- Hst1 in Bi, Bl, Bd.
      rewrite Hi, Hl, Hd, Bi, Bl, Bd.
      rewrite <- !app_assoc. cbn [app offsets sizes ids map length].
      replace (cindex st1) with
        (to_uint (to_uint (cindex st + ub (header_size_byte (fr_size f)))
                  + size_value (fr_size f)))
        by (rewrite Hst1; reflexivity).
      repeat split; auto; try lia.
      rewrite encode_frames_cons, <- app_assoc, <- Hfp1. exact Hfp.
    + injection H as <-. exists [], (fp st).
      rewrite (scan_body_break_export st st1 Hfull EB).
      rewrite (export_full st Hfull). cbn [offsets sizes ids map index length_ id_].
      rewrite !app_nil_r. repeat split; auto. cbn. lia.
Qed.

(** ** Offsets as file positions *)

Lemma encode_frame_length (f : frame) :
  wf_frame f ->
  Z.of_nat (length (encode_frame f))
  = ub (header_size_byte (fr_size f)) + size_value (fr_size f).
Proof.
  intros [Hlen _]. unfold encode_frame.
  rewrite length_app, Nat2Z.inj_add, encode_header_length. lia.
Qed.

(** Below 2^31 nothing wraps: the stored and exported offsets and lengths
    are the file positions and the payload lengths. *)
Lemma offsets_no_wrap (fs : list frame) : forall c : Z,
  0 <= c ->
  Forall wf_frame fs ->
  c + Z.of_nat (length (encode_frames fs)) < 2 ^ 31 ->
  map to_int (offsets c fs) = payload_starts c fs
  /\ map to_int (sizes fs) = payload_lengths fs.
Proof.
  induction fs as [|f fs IH]; intros c Hc Hwf Hlen.
  - split; reflexivity.
  - inversion Hwf as [|? ? Hwf1 Hwf2]; subst.
    rewrite encode_frames_cons, length_app, Nat2Z.inj_add in Hlen.
    rewrite (encode_frame_length f Hwf1) in Hlen.
    pose proof (size_value_range (fr_size f)) as Hs.
    pose proof (ub_range (header_size_byte (fr_size f))) as Hh.
    cbn [offsets payload_starts sizes payload_lengths map].
    rewrite (to_uint_small (c + ub (header_size_byte (fr_size f)))) by lia.
    rewrite (to_uint_small (c + ub (header_size_byte (fr_size f))
                            + size_value (fr_size f))) by lia.
    rewrite (to_uint_small (size_value (fr_size f))) by lia.
    rewrite !to_int_small by lia.
    destruct (IH (c + ub (header_size_byte (fr_size f)) + size_value (fr_size f)))
      as [Ho Hl]; [lia | exact Hwf2 | lia |].
    fold (sizes fs). fold (payload_lengths fs). rewrite Ho, Hl. auto.
Qed.





Lemma initial_state_full (s : list byte) (c : Z) : bufs_full (initial_state s c).
Proof.
  unfold bufs_full. cbn [initial_state index_buf length_buf id_buf chunk length]. auto.
Qed.

(** ** The result of a scan over frames *)

Lemma frames_count_le (fs : list frame) :
  Forall wf_frame fs ->
  Z.of_nat (length fs) <= Z.of_nat (length (encode_frames fs)).
Proof.
  intros Hwf. induction Hwf as [|g gs Hg _ IH]; [cbn; lia|].
  rewrite encode_frames_cons, length_app, Nat2Z.inj_add, (encode_frame_length g Hg).
  destruct (header_size_10_or_12 (fr_size g));
    pose proof (size_value_range (fr_size g)); cbn [length] in *; lia.
Qed.

Lemma flag_after_existsb (fs : list frame) : forall b : Z,
  flag_after b fs = if existsb checksum_differs fs then 1 else b.
Proof.
  induction fs as [|f fs IH]; intros b; cbn [flag_after existsb].
  - reflexivity.
  - rewrite IH. destruct (checksum_differs f); cbn [orb]; [|reflexivity].
    destruct (existsb checksum_differs fs); reflexivity.
Qed.

Lemma ids_to_int (fs : list frame) : map to_int (ids fs) = ids fs.
Proof.
  unfold ids. induction fs as [|f fs IH]; cbn [map]; [reflexivity|].
  rewrite IH. pose proof (ub_range (fr_id f)). rewrite to_int_small by lia.
  reflexivity.
Qed.

(** The result of a scan over bytes without SYNC, then well-formed frames
    of even payload length, with the number of frames as limit. *)
Lemma do_ldc_frames_result (p : list byte) (fs : list frame) (rest : list byte)
    (from to by_ DEBUG : Z) :
  Forall (fun b => b <> SYNC) p ->
  fs <> [] ->
  Forall wf_frame fs -> Forall even_frame fs ->
  0 <= from -> 0 <= by_ ->
  to = Z.of_nat (length fs) ->
  Z.of_nat (length (p ++ encode_frames fs)) < 2 ^ 31 ->
  do_ldc_ad2cp_in_file (Some (p ++ encode_frames fs ++ rest)) from to by_ DEBUG
  = Ok (mk_result (payload_starts (Z.of_nat (length p)) fs) (payload_lengths fs)
          (ids fs) (if existsb checksum_differs fs then 1 else 0)).
Proof.
  intros Hp Hne Hwf Heven Hfrom Hby Hto Hlen.
  rewrite length_app, Nat2Z.inj_add in Hlen.
  pose proof (frames_count_le fs Hwf) as Hk.
  assert (Hsync : exists t, encode_frames fs ++ rest = SYNC :: t).
  { destruct fs as [|f fs]; [contradiction | apply encode_frames_head]. }
  rewrite (do_ldc_frames p fs rest from to by_ DEBUG 0); auto; try lia.
  cbn [scan_loop omap bind]. rewrite export_run_frames.
  rewrite to_uint_small by lia.
  destruct (offsets_no_wrap fs (Z.of_nat (length p))) as [Ho Hl];
    [lia | exact Hwf | lia |].
  rewrite Ho, Hl, ids_to_int, flag_after_existsb. reflexivity.
Qed.

(** ** The record limit (claim C1) *)

Lemma sync_locate_outcome (s : list byte) : forall c,
  (exists s' c', sync_locate s c = Ok (s', c')) \/ sync_locate s c = Fatal NoSyncByte.
Proof.
  induction s as [|b s IH]; intros c; cbn [sync_locate].
  - right. reflexivity.
  - destruct (Byte.eqb b SYNC); [left; eauto | apply IH].
Qed.

(** With the limit 0 no file gives a record. *)
Lemma limit_zero_outcome (s : list byte) (from by_ DEBUG : Z) :
  0 <= from -> 0 <= by_ ->
  do_ldc_ad2cp_in_file (Some s) from 0 by_ DEBUG = Ok (mk_result [] [] [] 0)
  \/ do_ldc_ad2cp_in_file (Some s) from 0 by_ DEBUG = Fatal NoSyncByte.
Proof.
  intros Hfrom Hby. unfold do_ldc_ad2cp_in_file.
  destruct (from <? 0) eqn:E1; [lia|].
  destruct (by_ <? 0) eqn:E3; [lia|].
  change (0 <? 0) with false. cbv iota.
  destruct (sync_locate_outcome s 0) as [(s' & c' & H) | H]; rewrite H.
  - left. reflexivity.
  - right. reflexivity.
Qed.

Lemma scan_loop_chunk (n : nat) : forall st st',
  scan_loop n st = Ok st' -> (chunk st' <= chunk st + n)%nat.
Proof.
  induction n as [|n IH]; intros st st' H.
  - injection H as <-. lia.
  - cbn [scan_loop] in H.
    destruct (scan_body st) as [[st1 | st1] | |] eqn:EB; try discriminate;
      cbn [bind] in H;
      destruct (scan_body_shape st _ EB) as (o & l & i & Hc & _).
    + apply IH in H. lia.
    + injection H as <-. lia.
Qed.

(** With a limit [to] the result has at most [to] records. *)
Lemma at_most_to_records (s : list byte) (from to by_ DEBUG : Z) (r : result) :
  do_ldc_ad2cp_in_file (Some s) from to by_ DEBUG = Ok r ->
  to < 2 ^ 32 ->
  Z.of_nat (length (index r)) <= to.
Proof.
  unfold do_ldc_ad2cp_in_file. intros H Hto.
  destruct (from <? 0); [discriminate|].
  destruct (to <? 0) eqn:E2; [discriminate|].
  destruct (by_ <? 0); [discriminate|].
  destruct (sync_locate s 0) as [[s1 c0] | |]; try discriminate.
  cbn [bind] in H. unfold omap in H.
  destruct (scan_loop _ _) as [st' | |] eqn:EL; try discriminate.
  cbn [bind] in H. injection H as <-.
  apply scan_loop_chunk in EL. cbn [initial_state chunk Nat.add] in EL.
  rewrite to_uint_small in EL by lia.
  unfold export. cbn [index]. rewrite length_map, length_firstn. lia.
Qed.

(** C1: the limit 0 does not stand for the whole file.  The file made of
    the two example frames, which have the checksums of their payloads,
    gives both records with the limit 2 and no record with the limit 0:
    the loop body never runs. *)
Theorem limit_zero_returns_no_records :
  do_ldc_ad2cp_in_file (Some (encode_frames [frame_a; frame_b])) 1 2 1 0
  = Ok (mk_result [10; 26] [4; 2] [21; 22] 0)
  /\ do_ldc_ad2cp_in_file (Some (encode_frames [frame_a; frame_b])) 1 0 1 0
     = Ok (mk_result [] [] [] 0).
Proof.
  split; vm_compute; reflexivity.
Qed.

(** ** A payload cut short (claim C2) *)

Lemma fread_all (n : Z) (fp0 : list byte) :
  Z.of_nat (length fp0) <= n -> fread n fp0 = (fp0, []).
Proof.
  intros H. unfold fread. rewrite Z.min_r by lia. rewrite Nat2Z.id.
  rewrite firstn_all, skipn_all. reflexivity.
Qed.

(** A pass over a header followed by fewer payload bytes than it
    announces ends in [break]; nothing is added to the result and the
    flag is left as it was. *)
Lemma scan_body_short_payload (st : state) (f : frame) :
  bufs_full st ->
  fp st = encode_frame f ->
  Z.of_nat (length (fr_payload f)) < size_value (fr_size f) < 2 ^ 31 ->
  exists st', scan_body st = Ok (Break st') /\ export st' = export st.
Proof.
  intros Hfull Hfp [Hshort Hsmall].
  assert (Hbody : exists st', scan_body st = Ok (Break st')).
  { unfold scan_body. rewrite Hfp. unfold encode_frame.
    rewrite read_header_frame. cbn [bind data_size header_size id data_checksum].
    rewrite (decoded_size_small (fr_size f) Hsmall).
    rewrite fread_all by lia.
    assert (Hroom : ((if dbuflen st <? size_value (fr_size f)
                      then to_uint (size_value (fr_size f))
                      else dbuflen st) <? Z.of_nat (length (fr_payload f))) = false).
    { apply Z.ltb_ge. destruct (dbuflen st <? size_value (fr_size f)) eqn:E.
      - rewrite to_uint_small by lia. lia.
      - apply Z.ltb_ge in E. lia. }
    rewrite Hroom.
    replace (Z.of_nat (length (fr_payload f)) =? size_value (fr_size f)) with false
      by (symmetry; apply Z.eqb_neq; lia).
    cbn [negb]. eexists. reflexivity. }
  destruct Hbody as [st' Hst']. exists st'. split; [exact Hst'|].
  apply (scan_body_break_export st st' Hfull Hst').
Qed.

(** C2: the second frame lacks its last payload byte.  The scan returns
    the first record only, and the flag is 0. *)
Theorem short_payload_leaves_flag_clear :
  do_ldc_ad2cp_in_file (Some truncated_stream) 1 2 1 0
  = Ok (mk_result [10] [4] [21] 0).
Proof.
  vm_compute. reflexivity.
Qed.

(** ** Checksum mismatch (claim C3) *)

(** Whatever the loop does from [st], the records exported at [st] stay in
    front of the result, and a raised flag stays raised. *)
Lemma scan_loop_extends (n : nat) : forall (st st' : state),
  bufs_full st ->
  scan_loop n st = Ok st' ->
  (exists mi ml md,
     index (export st') = index (export st) ++ mi
     /\ length_ (export st') = length_ (export st) ++ ml
     /\ id_ (export st') = id_ (export st) ++ md)
  /\ (broken_end st = 1 -> brokenEnd (export st') = 1).
Proof.
  induction n as [|n IH]; intros st st' Hfull H.
  - injection H as <-. split; [|auto].
    exists [], [], []. rewrite !app_nil_r. auto.
  - cbn [scan_loop] in H.
    destruct (scan_body st) as [[st1 | st1] | |] eqn:EB; try discriminate;
      cbn [bind] in H.
    + destruct (scan_body_shape st (Continue st1) EB)
        as (o & l & i & Hc & Hb & Hi & Hl & Hd).
      pose proof Hfull as (F1 & F2 & F3).
      rewrite store_full in Hi, Hl, Hd by assumption.
      assert (Hfull1 : bufs_full st1).
      { unfold bufs_full. rewrite Hc, Hi, Hl, Hd, !length_app. cbn. lia. }
      destruct (IH st1 st' Hfull1 H) as [(mi & ml & md & Ei & El & Ed) Hflag].
      rewrite (export_full st1 Hfull1) in Ei, El, Ed.
      cbn [index length_ id_] in Ei, El, Ed.
      rewrite (export_full st Hfull). cbn [index length_ id_].
      split.
      * exists (to_int o :: mi), (to_int l :: ml), (to_int i :: md).
        rewrite Ei, El, Ed, Hi, Hl, Hd, !map_app, <- !app_assoc. auto.
      * intros Hone. apply Hflag. destruct Hb as [Hb | Hb]; congruence.
    + injection H as <-.
      rewrite (scan_body_break_export st st1 Hfull EB). split; [|auto].
      exists [], [], []. rewrite !app_nil_r. auto.
Qed.

(** One pass over a well-formed frame whose computed checksum [c] is not
    the checksum of its header reaches the end of the loop body: the
    record is stored, the flag is set, the next pass starts at the byte
    after the payload, and every result the loop then returns holds the
    record and the flag. *)
Lemma checksum_mismatch_pass (st : state) (f : frame) (rest : list byte) (c : Z) :
  bufs_full st ->
  fp st = encode_frame f ++ rest ->
  wf_frame f ->
  cs (fr_payload f ++ skipn (length (fr_payload f)) (dbuf st))
     (to_ushort (size_value (fr_size f))) = Ok c ->
  c <> to_ushort (declared_checksum f) ->
  exists st',
    scan_body st = Ok (Continue st')
    /\ fp st' = rest
    /\ chunk st' = S (chunk st)
    /\ broken_end st' = 1
    /\ index_buf st'
       = index_buf st ++ [to_uint (cindex st + ub (header_size_byte (fr_size f)))]
    /\ length_buf st' = length_buf st ++ [to_uint (size_value (fr_size f))]
    /\ id_buf st' = id_buf st ++ [ub (fr_id f)]
    /\ (forall n, scan_loop (S n) st = scan_loop n st')
    /\ (forall n st'', scan_loop n st' = Ok st'' ->
          brokenEnd (export st'') = 1
          /\ exists mi ml md,
               index (export st'') = map to_int (index_buf st') ++ mi
               /\ length_ (export st'') = map to_int (length_buf st') ++ ml
               /\ id_ (export st'') = map to_int (id_buf st') ++ md).
Proof.
  intros Hfull Hfp Hwf Hcs Hne.
  pose proof (scan_body_frame st f rest Hfp Hwf) as Hbody.
  rewrite Hcs in Hbody. cbn [bind] in Hbody.
  assert (Hflag : broken_end (after_frame st f rest c) = 1).
  { cbn [after_frame broken_end].
    destruct (c =? to_ushort (declared_checksum f)) eqn:E; [|reflexivity].
    apply Z.eqb_eq in E. contradiction. }
  destruct (after_frame_bufs st f rest c Hfull) as (Bi & Bl & Bd).
  pose proof (after_frame_full st f rest c Hfull) as Hfull'.
  exists (after_frame st f rest c).
  repeat split; auto.
  - intros n. cbn [scan_loop]. rewrite Hbody. reflexivity.
  - destruct (scan_loop_extends n _ _ Hfull' H) as [_ Hb]. auto.
  - destruct (scan_loop_extends n _ _ Hfull' H) as [(mi & ml & md & Ei & El & Ed) _].
    rewrite (export_full _ Hfull') in Ei, El, Ed. cbn [index length_ id_] in Ei, El, Ed.
    exists mi, ml, md. auto.
Qed.

(** C3: in a file of well-formed frames of even payload length, after any
    bytes without SYNC, let [f] be a frame for which [cs] does not return
    the checksum of its header.  The scan with the number of frames as
    limit does not stop at [f]: it returns one record for every frame,
    that of [f] and those of the frames after [f] included, and the flag
    1.  What follows the frames in the file is not read. *)
Theorem checksum_mismatch_continues (p : list byte) (fs1 : list frame) (f : frame)
    (fs2 : list frame) (rest : list byte) (from to by_ DEBUG : Z) :
  Forall (fun b => b <> SYNC) p ->
  Forall wf_frame (fs1 ++ f :: fs2) -> Forall even_frame (fs1 ++ f :: fs2) ->
  cs (fr_payload f) (to_ushort (size_value (fr_size f))) <> Ok (declared_checksum f) ->
  0 <= from -> 0 <= by_ ->
  to = Z.of_nat (length (fs1 ++ f :: fs2)) ->
  Z.of_nat (length (p ++ encode_frames (fs1 ++ f :: fs2))) < 2 ^ 31 ->
  do_ldc_ad2cp_in_file (Some (p ++ encode_frames (fs1 ++ f :: fs2) ++ rest))
    from to by_ DEBUG
  = Ok (mk_result (payload_starts (Z.of_nat (length p)) (fs1 ++ f :: fs2))
          (payload_lengths (fs1 ++ f :: fs2)) (ids (fs1 ++ f :: fs2)) 1).
Proof.
  intros Hp Hwf Heven Hcs Hfrom Hby Hto Hlen.
  assert (Hdiff : checksum_differs f = true).
  { pose proof (Forall_elt _ _ _ Hwf) as [Hl _].
    pose proof (Forall_elt _ _ _ Heven) as He. unfold even_frame in He.
    rewrite <- Hl in He, Hcs.
    pose proof (cs_payload (fr_payload f) [] He) as Hc. rewrite app_nil_r in Hc.
    unfold checksum_differs.
    rewrite (to_ushort_small (declared_checksum f)).
    - apply negb_true_iff, Z.eqb_neq. intros E. apply Hcs. rewrite Hc, E. reflexivity.
    - unfold declared_checksum.
      pose proof (ub_range (fst (fr_data_checksum f))).
      pose proof (ub_range (snd (fr_data_checksum f))). lia. }
  rewrite (do_ldc_frames_result p (fs1 ++ f :: fs2) rest from to by_ DEBUG); auto.
  - rewrite existsb_app. cbn [existsb]. rewrite Hdiff, orb_true_r. reflexivity.
  - intros E. destruct fs1; discriminate.
Qed.

Lemma checksum_mismatch_continues_witness :
  do_ldc_ad2cp_in_file
    (Some ([x00] ++ encode_frames ([frame_a] ++ frame_c :: [frame_b]) ++ [xff]))
    1 3 1 0
  = Ok (mk_result [11; 25; 41] [4; 4; 2] [21; 21; 22] 1).
Proof.
  apply (checksum_mismatch_continues [x00] [frame_a] frame_c [frame_b] [xff] 1 3 1 0).
  - repeat constructor; discriminate.
  - repeat constructor; vm_compute; reflexivity.
  - repeat constructor.
  - vm_compute. discriminate.
  - lia.
  - lia.
  - reflexivity.
  - vm_compute. reflexivity.
Defined.

(** ** The checksum of a payload (claim C4) *)

Lemma summed_part_short (payload : list byte) :
  Z.of_nat (length payload) < 2 ^ 16 -> summed_part payload = payload.
Proof.
  intros H. unfold summed_part. rewrite to_ushort_small by lia.
  rewrite Nat2Z.id. apply firstn_all.
Qed.

(** For an even number of payload bytes below 65536, [cs] gives 0xB58C
    plus the 16-bit little-endian words of the payload, modulo 2^16. *)
Lemma cs_even_payload (payload tail : list byte) :
  Z.even (Z.of_nat (length payload)) = true ->
  Z.of_nat (length payload) < 2 ^ 16 ->
  cs (payload ++ tail) (Z.of_nat (length payload)) = Ok (checksum_of payload).
Proof.
  intros Heven Hshort.
  rewrite <- (to_ushort_small (Z.of_nat (length payload))) by lia.
  rewrite cs_payload by exact Heven.
  rewrite summed_part_short by exact Hshort. reflexivity.
Qed.

(** That value is compared with the checksum of the header: the flag is
    set when they differ and kept when they agree. *)
Lemma scan_body_compares_checksum (st : state) (f : frame) (rest : list byte) :
  fp st = encode_frame f ++ rest ->
  wf_frame f -> even_frame f ->
  size_value (fr_size f) < 2 ^ 16 ->
  exists st',
    scan_body st = Ok (Continue st')
    /\ broken_end st'
       = if checksum_of (fr_payload f) =? declared_checksum f then broken_end st else 1.
Proof.
  intros Hfp Hwf Heven Hshort. eexists. split.
  - apply (scan_body_even_frame st f rest Hfp Hwf Heven).
  - cbn [after_frame broken_end]. destruct Hwf as [Hlen _].
    rewrite summed_part_short by lia.
    rewrite (to_ushort_small (declared_checksum f)).
    + destruct (checksum_of (fr_payload f) =? declared_checksum f); reflexivity.
    + unfold declared_checksum.
      pose proof (ub_range (fst (fr_data_checksum f))).
      pose proof (ub_range (snd (fr_data_checksum f))). lia.
Qed.

(** C4: the header of [long_frame] holds the checksum of its 65536
    payload bytes, but [cs] is called with the size 65536 converted to
    [unsigned short], which is 0: it returns 0xB58C and the flag is set. *)
Theorem long_payload_checksum_not_summed :
  checksum_of (fr_payload long_frame) = declared_checksum long_frame
  /\ cs (fr_payload long_frame) (to_ushort (size_value (fr_size long_frame))) = Ok 0xB58C
  /\ do_ldc_ad2cp_in_file (Some (encode_frame long_frame)) 1 1 1 0
     = Ok (mk_result [12] [65536] [21] 1).
Proof.
  split; [|split]; vm_compute; reflexivity.
Qed.

(** ** The width of the size field (claim C5) *)

(** A frame with a 16-bit or 32-bit size field below 2^31 is read with
    the little-endian value of the field as its length. *)
Lemma read_header_size (f : frame) (rest : list byte) :
  size_value (fr_size f) < 2 ^ 31 ->
  omap (fun hf => data_size (fst hf)) (read_header (encode_header f ++ rest))
  = Ok (size_value (fr_size f)).
Proof.
  intros H. rewrite read_header_frame. cbn [omap bind fst data_size].
  rewrite decoded_size_small by exact H. reflexivity.
Qed.

Lemma to_uint_decoded_large (v : Z) :
  0 <= v < 2 ^ 32 -> to_uint (2 ^ 64 - 2 ^ 32 + v) = v.
Proof.
  intros H. unfold to_uint.
  replace (2 ^ 64 - 2 ^ 32 + v) with (v + (2 ^ 32 - 1) * 2 ^ 32) by lia.
  rewrite Z.mod_add by lia. apply Z.mod_small. lia.
Qed.

(** A pass over a complete frame whose size field is 2^31 or more, at the
    end of the file: the payload is read, its length is not the decoded
    size, and the pass ends in [break]. *)
Lemma scan_body_large_frame (st : state) (f : frame) :
  bufs_full st ->
  fp st = encode_frame f ->
  Z.of_nat (length (fr_payload f)) = size_value (fr_size f) ->
  2 ^ 31 <= size_value (fr_size f) ->
  0 <= dbuflen st < 2 ^ 32 ->
  exists st', scan_body st = Ok (Break st') /\ export st' = export st.
Proof.
  intros Hfull Hfp Hlen Hlarge Hbuf.
  pose proof (size_value_range (fr_size f)) as Hv.
  assert (Hbody : exists st', scan_body st = Ok (Break st')).
  { unfold scan_body. rewrite Hfp. unfold encode_frame.
    rewrite read_header_frame. cbn [bind data_size header_size id data_checksum].
    rewrite (decoded_size_large (fr_size f) Hlarge).
    rewrite fread_all by lia.
    replace (dbuflen st <? 2 ^ 64 - 2 ^ 32 + size_value (fr_size f)) with true
      by (symmetry; apply Z.ltb_lt; lia).
    rewrite to_uint_decoded_large by exact Hv.
    rewrite Hlen, Z.ltb_irrefl.
    replace (size_value (fr_size f) =? 2 ^ 64 - 2 ^ 32 + size_value (fr_size f))
      with false by (symmetry; apply Z.eqb_neq; lia).
    cbn [negb]. eexists. reflexivity. }
  destruct Hbody as [st' Hst']. exists st'. split; [exact Hst'|].
  apply (scan_body_break_export st st' Hfull Hst').
Qed.

Lemma encode_frame_head (f : frame) : exists t, encode_frame f = SYNC :: t.
Proof. eexists. reflexivity. Qed.

(** A file that is one complete frame with a size field of 2^31 or more
    gives no record. *)
Lemma large_frame_not_returned (f : frame) (from to by_ DEBUG : Z) :
  Z.of_nat (length (fr_payload f)) = size_value (fr_size f) ->
  2 ^ 31 <= size_value (fr_size f) ->
  0 <= from -> 0 < to < 2 ^ 32 -> 0 <= by_ ->
  do_ldc_ad2cp_in_file (Some (encode_frame f)) from to by_ DEBUG
  = Ok (mk_result [] [] [] 0).
Proof.
  intros Hlen Hlarge Hfrom Hto Hby. pass_parameter_checks.
  destruct (encode_frame_head f) as [t Ht].
  rewrite Ht. cbn [sync_locate]. replace (Byte.eqb SYNC SYNC) with true by reflexivity.
  cbn [bind]. rewrite <- Ht.
  rewrite to_uint_small by lia.
  destruct (Z.to_nat to) as [|n] eqn:En; [lia|].
  destruct (scan_body_large_frame (initial_state (encode_frame f) 0) f)
    as (st' & Hbody & Hexp); auto.
  - apply initial_state_full.
  - cbn [initial_state dbuflen]. lia.
  - cbn [scan_loop]. rewrite Hbody. cbn [bind omap]. rewrite Hexp.
    reflexivity.
Qed.

(** C5: [frame_2G] is a complete frame with a 12-byte header whose size
    field, 00 00 00 80, is 2^31, the length of its payload.  The header
    decoder gives 2^64 - 2^31 instead, and the scan of the frame returns
    no record. *)
Theorem size_field_above_2G_misdecoded :
  encode_header frame_2G = header_2G
  /\ Z.of_nat (length (fr_payload frame_2G)) = 2147483648
  /\ size_value (fr_size frame_2G) = 2147483648
  /\ omap (fun hf => data_size (fst hf)) (read_header header_2G)
     = Ok 18446744071562067968
  /\ do_ldc_ad2cp_in_file (Some (encode_frame frame_2G)) 1 1 1 0
     = Ok (mk_result [] [] [] 0).
Proof.
  assert (Hlen : Z.of_nat (length (fr_payload frame_2G)) = 2147483648).
  { unfold frame_2G. cbn [fr_payload]. rewrite repeat_length, Z2Nat.id by lia.
    reflexivity. }
  split; [reflexivity|]. split; [exact Hlen|]. split; [reflexivity|].
  split; [vm_compute; reflexivity|].
  apply large_frame_not_returned; try lia.
  - rewrite Hlen. reflexivity.
  - lazy. discriminate.
Qed.

(** ** Record offsets (claim C6) *)








(** ** Bytes before the first SYNC (claim C7) *)

Lemma payload_starts_shift (fs : list frame) : forall c d : Z,
  payload_starts (c + d) fs = map (fun o => o + d) (payload_starts c fs).
Proof.
  induction fs as [|f fs IH]; intros c d; cbn [payload_starts map].
  - reflexivity.
  - f_equal; [lia|]. rewrite <- IH. f_equal. lia.
Qed.

(** C7 as stated fails: with one byte before two frames the first offset
    goes from 10 to 11; it grows by the number of bytes put in front, not
    by that number plus the header size. *)
Lemma prefix_offset_counterexample :
  exists r r',
    do_ldc_ad2cp_in_file (Some (encode_frames [frame_a; frame_b])) 1 2 1 0 = Ok r
    /\ do_ldc_ad2cp_in_file (Some ([x00] ++ encode_frames [frame_a; frame_b])) 1 2 1 0
       = Ok r'
    /\ length_ r' = length_ r /\ id_ r' = id_ r
    /\ nth_error (index r) 0 = Some 10
    /\ nth_error (index r') 0 = Some 11
    /\ 11 <> 10 + (Z.of_nat (length [x00]) + ub (header_size_byte (fr_size frame_a))).
Proof.
  exists (mk_result [10; 26] [4; 2] [21; 22] 0), (mk_result [11; 27] [4; 2] [21; 22] 0).
  split; [vm_compute; reflexivity|].
  split; [vm_compute; reflexivity|].
  split; [reflexivity|]. split; [reflexivity|].
  split; [reflexivity|]. split; [reflexivity|].
  vm_compute. discriminate.
Qed.

(** C7, amended: for well-formed frames [f :: fs] of even payload length,
    bytes [p] without SYNC in front of them, a limit equal to the number
    of frames and fewer than 2^31 bytes in all, both scans return one
    record for each frame, with the same lengths, ids and flag; every
    offset grows by the length of [p], and the first offset of the
    prefixed file is the length of [p] plus the first header size. *)
Theorem prefix_shifts_offsets (p : list byte) (f : frame) (fs : list frame)
    (from to by_ DEBUG : Z) :
  Forall (fun b => b <> SYNC) p ->
  Forall wf_frame (f :: fs) -> Forall even_frame (f :: fs) ->
  0 <= from -> 0 <= by_ ->
  to = Z.of_nat (length (f :: fs)) ->
  Z.of_nat (length (p ++ encode_frames (f :: fs))) < 2 ^ 31 ->
  exists r r',
    do_ldc_ad2cp_in_file (Some (encode_frames (f :: fs))) from to by_ DEBUG = Ok r
    /\ do_ldc_ad2cp_in_file (Some (p ++ encode_frames (f :: fs))) from to by_ DEBUG
       = Ok r'
    /\ length (index r) = length (f :: fs)
    /\ length_ r' = length_ r /\ id_ r' = id_ r /\ brokenEnd r' = brokenEnd r
    /\ index r' = map (fun o => o + Z.of_nat (length p)) (index r)
    /\ nth_error (index r') 0
       = Some (Z.of_nat (length p) + ub (header_size_byte (fr_size f))).
Proof.
  intros Hp Hwf Heven Hfrom Hby Hto Hlen.
  rewrite length_app in Hlen.
  assert (Hto' : to = Z.of_nat (length (f :: fs) + 0)) by (rewrite Nat.add_0_r; exact Hto).
  assert (Hk : Z.of_nat (length (f :: fs)) <= Z.of_nat (length (encode_frames (f :: fs)))).
  { clear - Hwf. induction Hwf as [|g gs Hg _ IH]; [cbn; lia|].
    rewrite encode_frames_cons, length_app, Nat2Z.inj_add, (encode_frame_length g Hg).
    destruct (header_size_10_or_12 (fr_size g));
      pose proof (size_value_range (fr_size g)); cbn [length] in *; lia. }
  pose proof (do_ldc_frames [] (f :: fs) [] from to by_ DEBUG 0
                (Forall_nil _) (encode_frames_head f fs [])
                Hwf Heven Hfrom Hby Hto' ltac:(lia)) as H0.
  pose proof (do_ldc_frames p (f :: fs) [] from to by_ DEBUG 0
                Hp (encode_frames_head f fs [])
                Hwf Heven Hfrom Hby Hto' ltac:(lia)) as H1.
  cbn [app] in H0. rewrite app_nil_r in H0, H1.
  cbn [scan_loop omap bind] in H0, H1.
  rewrite export_run_frames in H0, H1.
  cbn [length Z.of_nat] in H0. change (to_uint 0) with 0 in H0.
  rewrite to_uint_small in H1 by lia.
  destruct (offsets_no_wrap (f :: fs) 0) as [Ho0 Hl0]; [lia | exact Hwf | lia |].
  destruct (offsets_no_wrap (f :: fs) (Z.of_nat (length p))) as [Ho1 _];
    [lia | exact Hwf | lia |].
  rewrite Ho0 in H0. rewrite Ho1 in H1.
  do 2 eexists. split; [exact H0|]. split; [exact H1|].
  cbn [index length_ id_ brokenEnd].
  repeat split.
  - rewrite <- Ho0, length_map. apply offsets_length.
  - rewrite <- (payload_starts_shift (f :: fs) 0 (Z.of_nat (length p))).
    reflexivity.
Qed.

Lemma prefix_shifts_offsets_witness :
  exists r r',
    do_ldc_ad2cp_in_file (Some (encode_frames [frame_a; frame_c])) 1 2 1 0 = Ok r
    /\ do_ldc_ad2cp_in_file
         (Some ([x00; x01; x02] ++ encode_frames [frame_a; frame_c])) 1 2 1 0
       = Ok r'
    /\ index r' = map (fun o => o + 3) (index r)
    /\ nth_error (index r') 0 = Some 13.
Proof.
  destruct (prefix_shifts_offsets [x00; x01; x02] frame_a [frame_c] 1 2 1 0)
    as (r & r' & H0 & H1 & _ & _ & _ & _ & Hi & Hf).
  - repeat constructor; discriminate.
  - repeat constructor; vm_compute; reflexivity.
  - repeat constructor.
  - lia.
  - lia.
  - reflexivity.
  - vm_compute. reflexivity.
  - exists r, r'. auto.
Defined.

(** ** Errors in a header (claim C8) *)

Lemma read_header_bad (fp0 : list byte) :
  bad_header fp0 -> exists e, read_header fp0 = Fatal e.
Proof.
  unfold bad_header, read_header. intros Hbad.
  destruct fp0 as [|s0 fp0]; [eexists; reflexivity|]. cbn [get1 bind].
  destruct (negb (Byte.eqb s0 SYNC)); [eexists; reflexivity|].
  destruct fp0 as [|hs fp0]; [eexists; reflexivity|]. cbn [get1 bind].
  destruct (ub hs <? 2); [eexists; reflexivity|].
  destruct fp0 as [|i fp0]; [eexists; reflexivity|]. cbn [get1 bind].
  destruct fp0 as [|fam fp0]; [eexists; reflexivity|]. cbn [get1 bind].
  unfold read_data_size.
  destruct (ub hs =? 10) eqn:E10; [|destruct (ub hs =? 12) eqn:E12].
  - apply Z.eqb_eq in E10. destruct Hbad as [[H _] | Hlen]; [contradiction|].
    rewrite E10 in Hlen. cbn [length] in Hlen.
    destruct fp0 as [|d0 [|d1 fp0]]; try (eexists; reflexivity). cbn [get2 bind].
    destruct fp0 as [|c0 [|c1 fp0]]; try (eexists; reflexivity). cbn [get2 bind].
    destruct fp0 as [|h0 [|h1 fp0]]; try (eexists; reflexivity).
    cbn [length] in Hlen. lia.
  - apply Z.eqb_eq in E12. destruct Hbad as [[_ H] | Hlen]; [contradiction|].
    rewrite E12 in Hlen. cbn [length] in Hlen.
    destruct fp0 as [|d0 [|d1 [|d2 [|d3 fp0]]]]; try (eexists; reflexivity).
    cbn [get4 bind].
    destruct fp0 as [|c0 [|c1 fp0]]; try (eexists; reflexivity). cbn [get2 bind].
    destruct fp0 as [|h0 [|h1 fp0]]; try (eexists; reflexivity).
    cbn [length] in Hlen. lia.
  - eexists; reflexivity.
Qed.

Lemma scan_loop_bad_header (st : state) (n : nat) :
  bad_header (fp st) -> exists e, scan_loop (S n) st = Fatal e.
Proof.
  intros Hbad. destruct (read_header_bad (fp st) Hbad) as [e He].
  exists e. cbn [scan_loop]. unfold scan_body. rewrite He. reflexivity.
Qed.

Lemma run_frames_fp (fs : list frame) : forall st rest,
  fp st = encode_frames fs ++ rest -> fp (run_frames st fs rest) = rest.
Proof.
  induction fs as [|f fs IH]; intros st rest Hfp; cbn [run_frames].
  - exact Hfp.
  - apply IH. reflexivity.
Qed.

(** C8: when, after any skipped bytes and any number of frames already
    decoded, the header-size byte is neither 10 nor 12 or the file ends
    inside the header, and the limit asks for one more record, the scan
    ends in a fatal error: no result is returned. *)
Theorem header_error_is_fatal (p : list byte) (fs : list frame) (rest : list byte)
    (from to by_ DEBUG : Z) :
  Forall (fun b => b <> SYNC) p ->
  (exists t, encode_frames fs ++ rest = SYNC :: t) ->
  Forall wf_frame fs -> Forall even_frame fs ->
  bad_header rest ->
  0 <= from -> 0 <= by_ ->
  Z.of_nat (length fs) < to < 2 ^ 31 ->
  exists e,
    do_ldc_ad2cp_in_file (Some (p ++ encode_frames fs ++ rest)) from to by_ DEBUG
    = Fatal e.
Proof.
  intros Hp Hsync Hwf Heven Hbad Hfrom Hby Hto.
  set (n := (Z.to_nat to - length fs - 1)%nat).
  rewrite (do_ldc_frames p fs rest from to by_ DEBUG (S n)); auto; try lia.
  destruct (scan_loop_bad_header
              (run_frames
                 (initial_state (encode_frames fs ++ rest)
                    (to_uint (Z.of_nat (length p)))) fs rest) n) as [e He].
  - rewrite run_frames_fp by reflexivity. exact Hbad.
  - exists e. rewrite He. reflexivity.
Qed.

Lemma header_error_is_fatal_witness :
  exists e,
    do_ldc_ad2cp_in_file
      (Some ([x00] ++ encode_frames [frame_a; frame_b] ++ [xa5; x0b; x15; x10]))
      1 3 1 0
    = Fatal e.
Proof.
  apply (header_error_is_fatal [x00] [frame_a; frame_b] [xa5; x0b; x15; x10] 1 3 1 0).
  - repeat constructor; discriminate.
  - eexists. reflexivity.
  - repeat constructor; vm_compute; reflexivity.
  - repeat constructor.
  - left. split; vm_compute; discriminate.
  - lia.
  - lia.
  - simpl. lia.
Defined.

(** ** A file without SYNC (claim C9) *)

(** C9: on a file without any SYNC byte every call ends in a fatal error
    and returns no result; when no parameter is negative, so that the
    file is looked at, the error is that of the sync locator, raised
    before any header is decoded. *)
Theorem no_sync_is_fatal (s : list byte) (from to by_ DEBUG : Z) :
  Forall (fun b => b <> SYNC) s ->
  (exists e, do_ldc_ad2cp_in_file (Some s) from to by_ DEBUG = Fatal e)
  /\ (0 <= from -> 0 <= to -> 0 <= by_ ->
      do_ldc_ad2cp_in_file (Some s) from to by_ DEBUG = Fatal NoSyncByte).
Proof.
  intros Hs. unfold do_ldc_ad2cp_in_file.
  rewrite (sync_locate_none s 0 Hs). cbn [bind].
  destruct (from <? 0) eqn:E1; [split; [eauto | lia]|].
  destruct (to <? 0) eqn:E2; [split; [eauto | lia]|].
  destruct (by_ <? 0) eqn:E3; [split; [eauto | lia]|].
  split; eauto.
Qed.

Lemma no_sync_is_fatal_witness :
  do_ldc_ad2cp_in_file (Some [x00; x0a; x15; x10; xa4; xa6]) 1 0 1 0
  = Fatal NoSyncByte.
Proof.
  apply (no_sync_is_fatal [x00; x0a; x15; x10; xa4; xa6] 1 0 1 0).
  - repeat constructor; discriminate.
  - lia.
  - lia.
  - lia.
Defined.

(** ** The parameters [from] and [by] (claim C10) *)

(** C10: two calls that differ only in [from] and [by], neither of them
    negative, have the same outcome: the same index, length and id lists
    and the same flag, or the same error. *)
Theorem from_by_do_not_matter (file : option (list byte))
    (from from' to by_ by_' DEBUG : Z) :
  0 <= from -> 0 <= from' -> 0 <= by_ -> 0 <= by_' ->
  do_ldc_ad2cp_in_file file from to by_ DEBUG
  = do_ldc_ad2cp_in_file file from' to by_' DEBUG.
Proof.
  intros H1 H2 H3 H4. destruct file as [s|]; [|reflexivity].
  unfold do_ldc_ad2cp_in_file.
  destruct (from <? 0) eqn:E1; [lia|].
  destruct (from' <? 0) eqn:E2; [lia|].
  destruct (by_ <? 0) eqn:E3; [lia|].
  destruct (by_' <? 0) eqn:E4; [lia|].
  reflexivity.
Qed.

Lemma from_by_do_not_matter_witness :
  do_ldc_ad2cp_in_file (Some (encode_frames [frame_a; frame_c])) 1 2 1 0
  = do_ldc_ad2cp_in_file (Some (encode_frames [frame_a; frame_c])) 2 2 5 0.
Proof.
  apply from_by_do_not_matter; lia.
Defined.

(** A negative [from], [to] or [by] is a fatal error. *)
Lemma negative_parameter_is_fatal (s : list byte) (from to by_ DEBUG : Z) :
  from < 0 \/ to < 0 \/ by_ < 0 ->
  exists e, do_ldc_ad2cp_in_file (Some s) from to by_ DEBUG = Fatal e.
Proof.
  intros H. unfold do_ldc_ad2cp_in_file.
  destruct (from <? 0) eqn:E1; [eexists; reflexivity|].
  destruct (to <? 0) eqn:E2; [eexists; reflexivity|].
  destruct (by_ <? 0) eqn:E3; [eexists; reflexivity|].
  lia.
Qed.

(** * Further properties of the scanner *)

(** ** The sync locator *)

(** X1: the locator stops at the first SYNC byte, leaves the file there and
    has counted the bytes before it in [cindex], modulo 2^32. *)
Theorem sync_locate_first_sync (p t : list byte) :
  Forall (fun b => b <> SYNC) p ->
  sync_locate (p ++ SYNC :: t) 0 = Ok (SYNC :: t, to_uint (Z.of_nat (length p))).
Proof.
  intros Hp. rewrite sync_locate_skip by (auto; lia).
  cbn [Z.add sync_locate]. reflexivity.
Qed.

Lemma sync_locate_first_sync_witness :
  sync_locate ([x00; xa4] ++ SYNC :: [x0a; xa5]) 0 = Ok (SYNC :: [x0a; xa5], 2).
Proof.
  apply (sync_locate_first_sync [x00; xa4] [x0a; xa5]).
  repeat constructor; discriminate.
Defined.

(** ** The header decoder *)

Lemma declared_checksum_range (f : frame) : 0 <= declared_checksum f < 2 ^ 16.
Proof.
  unfold declared_checksum.
  pose proof (ub_range (fst (fr_data_checksum f))).
  pose proof (ub_range (snd (fr_data_checksum f))). lia.
Qed.

(** X2: decoding an encoded header gives back its fields: the id and family
    bytes, the little-endian values of the size field (when below 2^31)
    and of the two checksums; the file is left at the first payload
    byte. *)
Theorem read_header_round_trip (f : frame) (rest : list byte) :
  size_value (fr_size f) < 2 ^ 31 ->
  read_header (encode_header f ++ rest)
  = Ok (mk_header SYNC (header_size_byte (fr_size f)) (fr_id f) (fr_family f)
          (size_value (fr_size f)) (declared_checksum f)
          (ub (fst (fr_header_checksum f)) + 256 * ub (snd (fr_header_checksum f))),
        rest).
Proof.
  intros Hsmall. rewrite read_header_frame.
  rewrite (decoded_size_small (fr_size f) Hsmall).
  rewrite (to_ushort_small (declared_checksum f)) by apply declared_checksum_range.
  rewrite to_ushort_small; [reflexivity|].
  pose proof (ub_range (fst (fr_header_checksum f))).
  pose proof (ub_range (snd (fr_header_checksum f))). lia.
Qed.

Lemma read_header_round_trip_witness :
  read_header (encode_header frame_b ++ [x00; x00])
  = Ok (mk_header SYNC x0c x16 x10 2 46476 0, [x00; x00]).
Proof.
  apply (read_header_round_trip frame_b [x00; x00]).
  vm_compute. reflexivity.
Defined.

(** X3: whatever the decoder accepts is an encoded header: the file starts
    with SYNC, the header-size byte is 10 or 12 and exactly that many
    bytes are consumed.  The id, the family and the two checksums returned
    are those of the header; the size returned is the little-endian value
    of the size field when that value is below 2^31, and 2^64 - 2^32 plus
    that value, not the value itself, when it is 2^31 or more. *)
Theorem read_header_accepts_encodings (fp0 fp1 : list byte) (h : header) :
  read_header fp0 = Ok (h, fp1) ->
  exists f,
    fp0 = encode_header f ++ fp1
    /\ sync h = SYNC
    /\ header_size h = header_size_byte (fr_size f)
    /\ id h = fr_id f
    /\ family h = fr_family f
    /\ (size_value (fr_size f) < 2 ^ 31 -> data_size h = size_value (fr_size f))
    /\ (2 ^ 31 <= size_value (fr_size f) ->
        data_size h = 2 ^ 64 - 2 ^ 32 + size_value (fr_size f))
    /\ data_checksum h = declared_checksum f
    /\ header_checksum h
       = ub (fst (fr_header_checksum f)) + 256 * ub (snd (fr_header_checksum f))
    /\ (ub (header_size h) = 10 \/ ub (header_size h) = 12)
    /\ Z.of_nat (length fp0) = ub (header_size h) + Z.of_nat (length fp1).
Proof.
  intros H. destruct (read_header_inv fp0 fp1 h H) as (f & _ & Hfp & _).
  exists f. rewrite Hfp in H. rewrite read_header_frame in H.
  injection H as <-. cbn [sync header_size id family data_size data_checksum
                          header_checksum].
  split; [exact Hfp|].
  split; [reflexivity|]. split; [reflexivity|]. split; [reflexivity|].
  split; [reflexivity|].
  split; [apply decoded_size_small|]. split; [apply decoded_size_large|].
  split; [apply to_ushort_small, declared_checksum_range|].
  split.
  { apply to_ushort_small.
    pose proof (ub_range (fst (fr_header_checksum f))).
    pose proof (ub_range (snd (fr_header_checksum f))). lia. }
  split.
  - apply header_size_10_or_12.
  - rewrite Hfp, length_app, Nat2Z.inj_add, encode_header_length. reflexivity.
Qed.

Lemma read_header_accepts_encodings_witness :
  exists f,
    header_2G ++ [x01; x02] = encode_header f ++ [x01; x02]
    /\ sync (mk_header SYNC x0c x15 x10 18446744071562067968 46476 0) = SYNC
    /\ header_size (mk_header SYNC x0c x15 x10 18446744071562067968 46476 0)
       = header_size_byte (fr_size f)
    /\ id (mk_header SYNC x0c x15 x10 18446744071562067968 46476 0) = fr_id f
    /\ family (mk_header SYNC x0c x15 x10 18446744071562067968 46476 0) = fr_family f
    /\ (size_value (fr_size f) < 2 ^ 31 ->
        data_size (mk_header SYNC x0c x15 x10 18446744071562067968 46476 0)
        = size_value (fr_size f))
    /\ (2 ^ 31 <= size_value (fr_size f) ->
        data_size (mk_header SYNC x0c x15 x10 18446744071562067968 46476 0)
        = 2 ^ 64 - 2 ^ 32 + size_value (fr_size f))
    /\ data_checksum (mk_header SYNC x0c x15 x10 18446744071562067968 46476 0)
       = declared_checksum f
    /\ header_checksum (mk_header SYNC x0c x15 x10 18446744071562067968 46476 0)
       = ub (fst (fr_header_checksum f)) + 256 * ub (snd (fr_header_checksum f))
    /\ (ub (header_size (mk_header SYNC x0c x15 x10 18446744071562067968 46476 0)) = 10
        \/ ub (header_size (mk_header SYNC x0c x15 x10 18446744071562067968 46476 0))
           = 12)
    /\ Z.of_nat (length (header_2G ++ [x01; x02]))
       = ub (header_size (mk_header SYNC x0c x15 x10 18446744071562067968 46476 0))
         + Z.of_nat (length [x01; x02]).
Proof.
  apply (read_header_accepts_encodings (header_2G ++ [x01; x02]) [x01; x02]
           (mk_header SYNC x0c x15 x10 18446744071562067968 46476 0)).
  vm_compute. reflexivity.
Defined.

(** ** Scans of files made of frames *)

(** X4: A file of bytes without SYNC, then K well-formed frames of even
    payload length (fewer than 2^31 bytes up to there), scanned with the
    limit K: the result has one record for each frame, with the position
    of its payload in the file, its payload length and its id byte,
    whatever that byte is; the flag is 1 when the checksum of some frame
    differs from the one in its header and 0 otherwise.  What follows the
    K frames in the file is not read. *)
Theorem scan_of_frames (p : list byte) (fs : list frame) (rest : list byte)
    (from to by_ DEBUG : Z) :
  Forall (fun b => b <> SYNC) p ->
  fs <> [] ->
  Forall wf_frame fs -> Forall even_frame fs ->
  0 <= from -> 0 <= by_ ->
  to = Z.of_nat (length fs) ->
  Z.of_nat (length (p ++ encode_frames fs)) < 2 ^ 31 ->
  do_ldc_ad2cp_in_file (Some (p ++ encode_frames fs ++ rest)) from to by_ DEBUG
  = Ok (mk_result (payload_starts (Z.of_nat (length p)) fs) (payload_lengths fs)
          (ids fs) (if existsb checksum_differs fs then 1 else 0)).
Proof.
  intros. apply do_ldc_frames_result; assumption.
Qed.

Lemma scan_of_frames_witness :
  do_ldc_ad2cp_in_file
    (Some ([x00] ++ encode_frames [frame_a; frame_c] ++ [xff; xa5])) 1 2 1 0
  = Ok (mk_result [11; 25] [4; 4] [21; 21] 1).
Proof.
  apply (scan_of_frames [x00] [frame_a; frame_c] [xff; xa5] 1 2 1 0).
  - repeat constructor; discriminate.
  - discriminate.
  - repeat constructor; vm_compute; reflexivity.
  - repeat constructor.
  - lia.
  - lia.
  - reflexivity.
  - vm_compute. reflexivity.
Defined.

Lemma scan_loop_at_eof (st : state) (n : nat) :
  fp st = [] -> scan_loop (S n) st = Fatal CannotReadSync.
Proof.
  intros H. cbn [scan_loop]. unfold scan_body. rewrite H. reflexivity.
Qed.

Lemma scan_loop_lost_sync (st : state) (n : nat) (b : byte) (t : list byte) :
  fp st = b :: t -> b <> SYNC -> scan_loop (S n) st = Fatal UnexpectedSync.
Proof.
  intros H Hb. cbn [scan_loop]. unfold scan_body, read_header. rewrite H.
  cbn [get1 bind]. apply eqb_SYNC_false in Hb. rewrite Hb. reflexivity.
Qed.

(** X5: A file that ends right after its K well-formed frames, scanned with a
    limit above K: the pass after the last frame finds no byte for
    [header.sync] and the call ends in that fatal error; the K records
    are not returned. *)
Theorem limit_beyond_last_frame_is_fatal (p : list byte) (fs : list frame)
    (from to by_ DEBUG : Z) :
  Forall (fun b => b <> SYNC) p ->
  fs <> [] ->
  Forall wf_frame fs -> Forall even_frame fs ->
  0 <= from -> 0 <= by_ ->
  Z.of_nat (length fs) < to < 2 ^ 31 ->
  do_ldc_ad2cp_in_file (Some (p ++ encode_frames fs)) from to by_ DEBUG
  = Fatal CannotReadSync.
Proof.
  intros Hp Hne Hwf Heven Hfrom Hby Hto.
  replace (p ++ encode_frames fs) with (p ++ encode_frames fs ++ [])
    by (rewrite app_nil_r; reflexivity).
  assert (Hsync : exists t, encode_frames fs ++ [] = SYNC :: t).
  { destruct fs as [|f fs]; [contradiction | apply encode_frames_head]. }
  rewrite (do_ldc_frames p fs [] from to by_ DEBUG
             (S (Z.to_nat to - length fs - 1))); auto; try lia.
  rewrite scan_loop_at_eof; [reflexivity|].
  apply run_frames_fp. reflexivity.
Qed.

Lemma limit_beyond_last_frame_is_fatal_witness :
  do_ldc_ad2cp_in_file (Some ([] ++ encode_frames [frame_a; frame_b])) 1 3 1 0
  = Fatal CannotReadSync.
Proof.
  apply (limit_beyond_last_frame_is_fatal [] [frame_a; frame_b] 1 3 1 0).
  - constructor.
  - discriminate.
  - repeat constructor; vm_compute; reflexivity.
  - repeat constructor.
  - lia.
  - lia.
  - simpl. lia.
Defined.

(** X6: sync is looked for once only: when the byte after a frame is not
    SYNC and the limit asks for another record, the call ends in a fatal
    error, also when a SYNC byte and further frames come later. *)
Theorem lost_sync_is_fatal (p : list byte) (fs : list frame) (b : byte)
    (t : list byte) (from to by_ DEBUG : Z) :
  Forall (fun b => b <> SYNC) p ->
  fs <> [] ->
  Forall wf_frame fs -> Forall even_frame fs ->
  b <> SYNC ->
  0 <= from -> 0 <= by_ ->
  Z.of_nat (length fs) < to < 2 ^ 31 ->
  do_ldc_ad2cp_in_file (Some (p ++ encode_frames fs ++ b :: t)) from to by_ DEBUG
  = Fatal UnexpectedSync.
Proof.
  intros Hp Hne Hwf Heven Hb Hfrom Hby Hto.
  assert (Hsync : exists t', encode_frames fs ++ b :: t = SYNC :: t').
  { destruct fs as [|f fs]; [contradiction | apply encode_frames_head]. }
  rewrite (do_ldc_frames p fs (b :: t) from to by_ DEBUG
             (S (Z.to_nat to - length fs - 1))); auto; try lia.
  rewrite (scan_loop_lost_sync _ _ b t); [reflexivity | | exact Hb].
  apply run_frames_fp. reflexivity.
Qed.

Lemma lost_sync_is_fatal_witness :
  do_ldc_ad2cp_in_file
    (Some ([] ++ encode_frames [frame_a] ++ x00 :: encode_frames [frame_b])) 1 2 1 0
  = Fatal UnexpectedSync.
Proof.
  apply (lost_sync_is_fatal [] [frame_a] x00 (encode_frames [frame_b]) 1 2 1 0).
  - constructor.
  - discriminate.
  - repeat constructor; vm_compute; reflexivity.
  - repeat constructor.
  - discriminate.
  - lia.
  - lia.
  - simpl. lia.
Defined.

Lemma same_checked_fields_frames (fs fs' : list frame) :
  Forall2 same_checked_fields fs fs' ->
  (forall c, payload_starts c fs = payload_starts c fs')
  /\ payload_lengths fs = payload_lengths fs'
  /\ ids fs = ids fs'
  /\ existsb checksum_differs fs = existsb checksum_differs fs'
  /\ length (encode_frames fs) = length (encode_frames fs')
  /\ (Forall wf_frame fs -> Forall wf_frame fs')
  /\ (Forall even_frame fs -> Forall even_frame fs').
Proof.
  intros H. induction H as [|f f' fs fs' (Hi & Hs & Hc & Hp) _ IH].
  - repeat split; auto.
  - destruct IH as (I1 & I2 & I3 & I4 & I5 & I6 & I7).
    assert (Hd : checksum_differs f = checksum_differs f').
    { unfold checksum_differs, declared_checksum. rewrite Hp, Hc. reflexivity. }
    assert (Hl : length (encode_frame f) = length (encode_frame f')).
    { unfold encode_frame, encode_header. rewrite !length_app, Hp, Hs. reflexivity. }
    repeat split.
    + intros c. cbn [payload_starts]. rewrite Hs, I1. reflexivity.
    + cbn [payload_lengths map]. fold (payload_lengths fs) (payload_lengths fs').
      rewrite Hs, I2. reflexivity.
    + cbn [ids map]. fold (ids fs) (ids fs'). rewrite Hi, I3. reflexivity.
    + cbn [existsb]. rewrite Hd, I4. reflexivity.
    + rewrite !encode_frames_cons, !length_app, Hl, I5. reflexivity.
    + intros Hwf. inversion Hwf as [|? ? [W1 W2] W3]; subst.
      constructor; [|auto]. split; rewrite <- Hs; [rewrite <- Hp|]; assumption.
    + intros Hev. inversion Hev as [|? ? E1 E2]; subst.
      constructor; [|auto]. unfold even_frame in *. rewrite <- Hs. exact E1.
Qed.

(** X7: the family byte and the header checksum are read and never looked at:
    two files whose frames differ only in these bytes give the same
    result. *)
Theorem family_and_header_checksum_ignored (p : list byte) (fs fs' : list frame)
    (from to by_ DEBUG : Z) :
  Forall2 same_checked_fields fs fs' ->
  Forall (fun b => b <> SYNC) p ->
  fs <> [] ->
  Forall wf_frame fs -> Forall even_frame fs ->
  0 <= from -> 0 <= by_ ->
  to = Z.of_nat (length fs) ->
  Z.of_nat (length (p ++ encode_frames fs)) < 2 ^ 31 ->
  do_ldc_ad2cp_in_file (Some (p ++ encode_frames fs')) from to by_ DEBUG
  = do_ldc_ad2cp_in_file (Some (p ++ encode_frames fs)) from to by_ DEBUG.
Proof.
  intros Hsame Hp Hne Hwf Heven Hfrom Hby Hto Hlen.
  destruct (same_checked_fields_frames fs fs' Hsame)
    as (S1 & S2 & S3 & S4 & S5 & S6 & S7).
  pose proof (Forall2_length Hsame) as HK.
  replace (p ++ encode_frames fs) with (p ++ encode_frames fs ++ [])
    by (rewrite app_nil_r; reflexivity).
  replace (p ++ encode_frames fs') with (p ++ encode_frames fs' ++ [])
    by (rewrite app_nil_r; reflexivity).
  rewrite (do_ldc_frames_result p fs [] from to by_ DEBUG); auto.
  rewrite (do_ldc_frames_result p fs' [] from to by_ DEBUG); auto.
  - rewrite S1, S2, S3, S4. reflexivity.
  - intros ->. destruct fs; [contradiction | discriminate].
  - congruence.
  - rewrite length_app in *. rewrite <- S5. exact Hlen.
Qed.

Lemma family_and_header_checksum_ignored_witness :
  do_ldc_ad2cp_in_file
    (Some ([] ++ encode_frames
                   [mk_frame x15 x77 (Size16 x04 x00) (x90, xbb) (x12, x34)
                      [x01; x02; x03; x04]])) 1 1 1 0
  = do_ldc_ad2cp_in_file (Some ([] ++ encode_frames [frame_a])) 1 1 1 0.
Proof.
  apply (family_and_header_checksum_ignored [] [frame_a]
           [mk_frame x15 x77 (Size16 x04 x00) (x90, xbb) (x12, x34)
              [x01; x02; x03; x04]] 1 1 1 0).
  - repeat constructor.
  - constructor.
  - discriminate.
  - repeat constructor; vm_compute; reflexivity.
  - repeat constructor.
  - lia.
  - lia.
  - reflexivity.
  - vm_compute. reflexivity.
Defined.

(** ** What the checksum reads and what it detects *)

Lemma pair_ind (P : list byte -> Prop) :
  P [] -> (forall a, P [a]) -> (forall a b t, P t -> P (a :: b :: t)) ->
  forall l, P l.
Proof.
  intros H0 H1 H2 l.
  assert (H : P l /\ forall a, P (a :: l)).
  { induction l as [|b l [IHl IHal]]; split; auto. }
  apply H.
Qed.

Lemma even_length_tail (a b : byte) (t : list byte) :
  Z.even (Z.of_nat (length (a :: b :: t))) = true ->
  Z.even (Z.of_nat (length t)) = true.
Proof.
  intros H. apply Z.even_spec in H. destruct H as [m Hm].
  apply Z.even_spec. exists (m - 1). cbn [length] in Hm. lia.
Qed.

Lemma set_byte_length (k : nat) (b : byte) (l : list byte) :
  (k < length l)%nat -> length (set_byte k b l) = length l.
Proof.
  intros H. unfold set_byte. rewrite length_app, length_firstn. cbn [length].
  rewrite length_skipn. lia.
Qed.

(** Replacing one byte of an even-length list moves the sum of its 16-bit
    words by the difference of the bytes, times 256 for a high byte. *)
Lemma pair_sum_set_byte (b : byte) (l : list byte) : forall (k : nat) (b0 : byte),
  Z.even (Z.of_nat (length l)) = true ->
  nth_error l k = Some b0 ->
  pair_sum (set_byte k b l)
  = pair_sum l + (ub b - ub b0) * (if Nat.even k then 1 else 256).
Proof.
  induction l as [|a|a c t IH] using pair_ind; intros k b0 Heven Hk.
  - destruct k; discriminate.
  - discriminate.
  - apply even_length_tail in Heven.
    destruct k as [|[|k]].
    + injection Hk as <-. cbn [set_byte firstn skipn app pair_sum Nat.even]. lia.
    + injection Hk as <-. cbn [set_byte firstn skipn app pair_sum Nat.even]. lia.
    + cbn [nth_error] in Hk.
      change (set_byte (S (S k)) b (a :: c :: t)) with (a :: c :: set_byte k b t).
      cbn [pair_sum]. rewrite (IH k b0 Heven Hk).
      change (Nat.even (S (S k))) with (Nat.even k). lia.
Qed.

Lemma to_ushort_moved (x d : Z) :
  d <> 0 -> - 2 ^ 16 < d < 2 ^ 16 -> to_ushort (x + d) <> to_ushort x.
Proof.
  intros Hd Hr E. unfold to_ushort in E.
  pose proof (Z.div_mod (x + d) (2 ^ 16)). pose proof (Z.div_mod x (2 ^ 16)).
  assert (d = 2 ^ 16 * ((x + d) / 2 ^ 16 - x / 2 ^ 16)) by lia.
  lia.
Qed.

Lemma checksum_of_set_byte (payload : list byte) (k : nat) (b b0 : byte) :
  Z.even (Z.of_nat (length payload)) = true ->
  nth_error payload k = Some b0 ->
  b <> b0 ->
  checksum_of (set_byte k b payload) <> checksum_of payload.
Proof.
  intros Heven Hk Hb. unfold checksum_of.
  rewrite (pair_sum_set_byte b payload k b0 Heven Hk), Z.add_assoc.
  assert (Hne : ub b <> ub b0) by (intros E; apply Hb, ub_inj, E).
  pose proof (ub_range b). pose proof (ub_range b0).
  apply to_ushort_moved; destruct (Nat.even k); lia.
Qed.

(** X8: for an even number of payload bytes below 65536, changing any one
    payload byte changes the value [cs] returns. *)
Theorem cs_detects_changed_byte (payload tail : list byte) (k : nat) (b b0 : byte) :
  Z.even (Z.of_nat (length payload)) = true ->
  Z.of_nat (length payload) < 2 ^ 16 ->
  nth_error payload k = Some b0 ->
  b <> b0 ->
  cs (set_byte k b payload ++ tail) (Z.of_nat (length payload))
  <> cs (payload ++ tail) (Z.of_nat (length payload)).
Proof.
  intros Heven Hshort Hk Hb.
  assert (Hlt : (k < length payload)%nat).
  { apply nth_error_Some. rewrite Hk. discriminate. }
  pose proof (set_byte_length k b payload Hlt) as Hlen.
  rewrite (cs_even_payload payload tail Heven Hshort).
  rewrite <- Hlen. rewrite cs_even_payload by (rewrite Hlen; assumption).
  intros E. injection E as E.
  apply (checksum_of_set_byte payload k b b0 Heven Hk Hb E).
Qed.

Lemma cs_detects_changed_byte_witness :
  cs (set_byte 2 xff [x01; x02; x03; x04] ++ [x00]) 4
  <> cs ([x01; x02; x03; x04] ++ [x00]) 4.
Proof.
  apply (cs_detects_changed_byte [x01; x02; x03; x04] [x00] 2 xff x03).
  - reflexivity.
  - vm_compute. reflexivity.
  - reflexivity.
  - discriminate.
Defined.

Lemma odd_half (n : Z) : Z.odd n = true -> 2 * ((n + 1) / 2) = n + 1.
Proof.
  intros H. apply Z.odd_spec in H. destruct H as [m Hm].
  replace (n + 1) with ((m + 1) * 2) by lia. rewrite Z.div_mul by lia. lia.
Qed.

(** X9: with an odd [size], [cs] also adds the byte after the first [size]
    bytes, as a high byte. *)
Theorem cs_odd_size_reads_next_byte (data : list byte) (n : Z) :
  Z.odd n = true ->
  0 <= n < Z.of_nat (length data) ->
  cs data n = Ok (checksum_of (firstn (Z.to_nat n + 1) data)).
Proof.
  intros Hodd Hn. pose proof (odd_half n Hodd) as Hhalf.
  unfold cs. rewrite cs_loop_pairs; [| lia | lia].
  cbn [skipn]. unfold checksum_of.
  replace (2 * Z.to_nat ((n + 1) / 2))%nat with (Z.to_nat n + 1)%nat by lia.
  reflexivity.
Qed.

Lemma cs_odd_size_reads_next_byte_witness :
  cs [x01; x02; x03; x04; x05] 3 = Ok (checksum_of (firstn (Z.to_nat 3 + 1)
                                                     [x01; x02; x03; x04; x05])).
Proof.
  apply (cs_odd_size_reads_next_byte [x01; x02; x03; x04; x05] 3).
  - reflexivity.
  - simpl. lia.
Defined.

Lemma cs_loop_overrun (data : list byte) : forall (k i : nat) (c : Z),
  (i <= length data)%nat ->
  (length data < i + 2 * k)%nat ->
  cs_loop k data i c = Undefined ReadPastDbuf.
Proof.
  induction k as [|k IH]; intros i c Hi Hk.
  - lia.
  - cbn [cs_loop].
    destruct (nth_error data i) as [lo|] eqn:Elo; [|reflexivity].
    destruct (nth_error data (S i)) as [hi|] eqn:Ehi; [|reflexivity].
    assert (S i < length data)%nat by (apply nth_error_Some; congruence).
    apply IH; lia.
Qed.

(** X10: when the 16-bit words that [size] asks for do not fit in the buffer,
    [cs] reads past its end; so it does for an odd [size] equal to the
    buffer length. *)
Theorem cs_reads_past_short_buffer (data : list byte) (n : Z) :
  Z.of_nat (length data) < 2 * ((n + 1) / 2) ->
  cs data n = Undefined ReadPastDbuf.
Proof.
  intros H. unfold cs. apply cs_loop_overrun; lia.
Qed.

Lemma cs_reads_past_short_buffer_witness :
  cs [x01; x02; x03] 3 = Undefined ReadPastDbuf.
Proof.
  apply (cs_reads_past_short_buffer [x01; x02; x03] 3).
  vm_compute. reflexivity.
Defined.

(** ** Payloads of odd length *)

Lemma skipn_one (l : list byte) (n : nat) (b : byte) :
  nth_error l n = Some b -> skipn n l = b :: skipn (S n) l.
Proof.
  intros H. apply (app_inv_head (firstn n l)).
  rewrite firstn_skipn. symmetry. apply firstn_skipn_middle, H.
Qed.

Lemma cs_odd_payload (payload tail : list byte) (b : byte) :
  Z.odd (Z.of_nat (length payload)) = true ->
  Z.of_nat (length payload) < 2 ^ 16 ->
  cs (payload ++ b :: tail) (to_ushort (Z.of_nat (length payload)))
  = Ok (checksum_of (payload ++ [b])).
Proof.
  intros Hodd Hshort. rewrite to_ushort_small by lia.
  pose proof (odd_half _ Hodd) as Hhalf.
  unfold cs. rewrite cs_loop_pairs; [| lia | rewrite length_app; cbn [length]; lia].
  cbn [skipn]. unfold checksum_of.
  replace (2 * Z.to_nat ((Z.of_nat (length payload) + 1) / 2))%nat
    with (length payload + 1)%nat by lia.
  rewrite firstn_app, firstn_all2 by lia.
  replace (length payload + 1 - length payload)%nat with 1%nat by lia.
  reflexivity.
Qed.



(** The loop at the first frame of the file. *)
Lemma do_ldc_first_frame (p : list byte) (f : frame) (rest : list byte)
    (from to by_ DEBUG : Z) :
  Forall (fun b => b <> SYNC) p ->
  0 <= from -> 0 <= by_ -> 0 <= to < 2 ^ 32 ->
  do_ldc_ad2cp_in_file (Some (p ++ encode_frame f ++ rest)) from to by_ DEBUG
  = omap export
      (scan_loop (Z.to_nat to)
         (initial_state (encode_frame f ++ rest) (to_uint (Z.of_nat (length p))))).
Proof.
  intros Hp Hfrom Hby Hto.
  pose proof (do_ldc_frames p [] (encode_frame f ++ rest) from to by_ DEBUG
                (Z.to_nat to) Hp) as H.
  change (encode_frames [] ++ encode_frame f ++ rest)
    with (encode_frame f ++ rest) in H.
  cbn [run_frames] in H. apply H.
  - destruct (encode_frame_head f) as [t Ht]. exists (t ++ rest).
    rewrite Ht. reflexivity.
  - apply Forall_nil.
  - apply Forall_nil.
  - exact Hfrom.
  - exact Hby.
  - cbn [length Nat.add]. lia.
  - lia.
Qed.

(** X12: the first frame of a file, with a payload of odd length below 10000:
    [dbuf] holds zeros after it, so the checksum compared with the header
    is that of the payload followed by one zero byte. *)
Theorem first_odd_payload_is_zero_padded (p : list byte) (f : frame)
    (rest : list byte) (from by_ DEBUG : Z) :
  Forall (fun b => b <> SYNC) p ->
  wf_frame f ->
  Z.odd (size_value (fr_size f)) = true ->
  size_value (fr_size f) < 10000 ->
  0 <= from -> 0 <= by_ ->
  Z.of_nat (length p) + 12 < 2 ^ 31 ->
  do_ldc_ad2cp_in_file (Some (p ++ encode_frame f ++ rest)) from 1 by_ DEBUG
  = Ok (mk_result [Z.of_nat (length p) + ub (header_size_byte (fr_size f))]
          [size_value (fr_size f)] [ub (fr_id f)]
          (if checksum_of (fr_payload f ++ [x00]) =? declared_checksum f
           then 0 else 1)).
Proof.
  intros Hp Hwf Hodd Hshort Hfrom Hby Hlen.
  rewrite do_ldc_first_frame by (auto; lia).
  change (Z.to_nat 1) with 1%nat. cbn [scan_loop].
  set (st := initial_state (encode_frame f ++ rest) (to_uint (Z.of_nat (length p)))).
  assert (Hb : nth_error (dbuf st) (length (fr_payload f)) = Some x00).
  { cbn [st initial_state dbuf]. apply nth_error_repeat.
    destruct Hwf as [Hl _]. lia. }
  assert (Hbody : scan_body st
                  = Ok (Continue (after_frame st f rest
                                    (checksum_of (fr_payload f ++ [x00]))))).
  { rewrite (scan_body_frame st f rest eq_refl Hwf).
    destruct Hwf as [Hl _]. rewrite <- Hl in *.
    rewrite (skipn_one _ _ x00 Hb), cs_odd_payload by (assumption || lia).
    reflexivity. }
  rewrite Hbody. cbn [bind omap].
  pose proof (initial_state_full (encode_frame f ++ rest)
                (to_uint (Z.of_nat (length p)))) as Hfull.
  fold st in Hfull.
  rewrite (export_full _ (after_frame_full st f rest _ Hfull)).
  destruct (after_frame_bufs st f rest (checksum_of (fr_payload f ++ [x00])) Hfull)
    as (Bi & Bl & Bd).
  rewrite Bi, Bl, Bd.
  cbn [st initial_state index_buf length_buf id_buf cindex app map
       after_frame broken_end].
  pose proof (size_value_range (fr_size f)).
  pose proof (ub_range (fr_id f)).
  destruct (header_size_10_or_12 (fr_size f)) as [Hh | Hh];
    rewrite (to_uint_small (Z.of_nat (length p))) by lia;
    rewrite (to_uint_small (Z.of_nat (length p) + _)) by lia;
    rewrite (to_uint_small (size_value (fr_size f))) by lia;
    rewrite !to_int_small by lia;
    rewrite (to_ushort_small (declared_checksum f))
      by apply declared_checksum_range;
    destruct (checksum_of (fr_payload f ++ [x00]) =? declared_checksum f);
    reflexivity.
Qed.

Lemma first_odd_payload_is_zero_padded_witness :
  do_ldc_ad2cp_in_file (Some ([x00] ++ encode_frame frame_odd ++ [xff])) 1 1 1 0
  = Ok (mk_result [11] [3] [21] 1).
Proof.
  apply (first_odd_payload_is_zero_padded [x00] frame_odd [xff] 1 1 0).
  - repeat constructor; discriminate.
  - split; vm_compute; reflexivity.
  - reflexivity.
  - vm_compute. reflexivity.
  - lia.
  - lia.
  - simpl. lia.
Defined.

(** X13: the first frame of a file, with a payload of odd length from 10000 to
    65535: [dbuf] is enlarged to exactly that length, and [cs] reads the
    byte after its end. *)
Theorem odd_payload_filling_buffer_reads_past_it (p : list byte) (f : frame)
    (rest : list byte) (from to by_ DEBUG : Z) :
  Forall (fun b => b <> SYNC) p ->
  wf_frame f ->
  Z.odd (size_value (fr_size f)) = true ->
  10000 <= size_value (fr_size f) < 2 ^ 16 ->
  0 <= from -> 0 <= by_ -> 0 < to < 2 ^ 31 ->
  do_ldc_ad2cp_in_file (Some (p ++ encode_frame f ++ rest)) from to by_ DEBUG
  = Undefined ReadPastDbuf.
Proof.
  intros Hp Hwf Hodd Hsize Hfrom Hby Hto.
  rewrite do_ldc_first_frame by (auto; lia).
  destruct (Z.to_nat to) as [|n] eqn:En; [lia|].
  cbn [scan_loop].
  rewrite (scan_body_frame
             (initial_state (encode_frame f ++ rest) (to_uint (Z.of_nat (length p))))
             f rest eq_refl Hwf).
  cbn [initial_state dbuf].
  destruct Hwf as [Hl _]. rewrite <- Hl in *.
  rewrite skipn_all2 by (rewrite repeat_length; lia).
  rewrite app_nil_r, to_ushort_small by lia.
  pose proof (odd_half _ Hodd) as Hhalf.
  unfold cs. rewrite cs_loop_overrun by lia. reflexivity.
Qed.

Lemma odd_payload_filling_buffer_reads_past_it_witness :
  do_ldc_ad2cp_in_file (Some ([] ++ encode_frame frame_odd_long ++ [])) 1 1 1 0
  = Undefined ReadPastDbuf.
Proof.
  apply (odd_payload_filling_buffer_reads_past_it [] frame_odd_long [] 1 1 1 0).
  - constructor.
  - split; vm_compute; reflexivity.
  - vm_compute. reflexivity.
  - split; vm_compute; [discriminate | reflexivity].
  - lia.
  - lia.
  - lia.
Defined.

(** ** A corrupted payload byte *)

Lemma encode_frames_app (fs1 fs2 : list frame) :
  encode_frames (fs1 ++ fs2) = encode_frames fs1 ++ encode_frames fs2.
Proof.
  unfold encode_frames. rewrite map_app. apply concat_app.
Qed.

Lemma same_layout_frames (fs fs' : list frame) :
  Forall2 (fun f f' => fr_id f = fr_id f' /\ fr_size f = fr_size f') fs fs' ->
  (forall c, payload_starts c fs = payload_starts c fs')
  /\ payload_lengths fs = payload_lengths fs'
  /\ ids fs = ids fs'.
Proof.
  intros H. induction H as [|f f' fs fs' [Hi Hs] _ (I1 & I2 & I3)].
  - repeat split.
  - repeat split.
    + intros c. cbn [payload_starts]. rewrite Hs, I1. reflexivity.
    + cbn [payload_lengths map]. fold (payload_lengths fs) (payload_lengths fs').
      rewrite Hs, I2. reflexivity.
    + cbn [ids map]. fold (ids fs) (ids fs'). rewrite Hi, I3. reflexivity.
Qed.

Lemma same_layout_refl (fs : list frame) :
  Forall2 (fun f f' => fr_id f = fr_id f' /\ fr_size f = fr_size f') fs fs.
Proof.
  induction fs; constructor; auto.
Qed.

Lemma checksum_differs_after_change (f : frame) (k : nat) (b b0 : byte) :
  wf_frame f -> even_frame f ->
  size_value (fr_size f) < 2 ^ 16 ->
  nth_error (fr_payload f) k = Some b0 ->
  b <> b0 ->
  checksum_differs f = false ->
  checksum_differs (with_payload f (set_byte k b (fr_payload f))) = true.
Proof.
  intros [Hlen _] Heven Hshort Hk Hb Hok.
  unfold even_frame in Heven. rewrite <- Hlen in Heven, Hshort.
  assert (Hlt : (k < length (fr_payload f))%nat).
  { apply nth_error_Some. rewrite Hk. discriminate. }
  unfold checksum_differs in *. cbn [with_payload fr_payload].
  change (declared_checksum (with_payload f (set_byte k b (fr_payload f))))
    with (declared_checksum f).
  rewrite summed_part_short in * by (rewrite ?set_byte_length; assumption).
  apply negb_false_iff, Z.eqb_eq in Hok. rewrite <- Hok.
  apply negb_true_iff, Z.eqb_neq.
  apply (checksum_of_set_byte (fr_payload f) k b b0 Heven Hk Hb).
Qed.

(** X14: in a file of well-formed frames, one payload byte of a frame whose
    header holds the right checksum is changed (even payload length below
    65536): the scan returns the same index, length and id lists as for
    the unchanged file, and the flag 1. *)
Theorem corrupted_payload_sets_flag (p : list byte) (fs1 : list frame) (f : frame)
    (fs2 : list frame) (k : nat) (b b0 : byte) (from to by_ DEBUG : Z) :
  Forall (fun b => b <> SYNC) p ->
  Forall wf_frame (fs1 ++ f :: fs2) -> Forall even_frame (fs1 ++ f :: fs2) ->
  size_value (fr_size f) < 2 ^ 16 ->
  nth_error (fr_payload f) k = Some b0 ->
  b <> b0 ->
  checksum_differs f = false ->
  0 <= from -> 0 <= by_ ->
  to = Z.of_nat (length (fs1 ++ f :: fs2)) ->
  Z.of_nat (length (p ++ encode_frames (fs1 ++ f :: fs2))) < 2 ^ 31 ->
  exists r,
    do_ldc_ad2cp_in_file (Some (p ++ encode_frames (fs1 ++ f :: fs2)))
      from to by_ DEBUG = Ok r
    /\ do_ldc_ad2cp_in_file
         (Some (p ++ encode_frames
                       (fs1 ++ with_payload f (set_byte k b (fr_payload f)) :: fs2)))
         from to by_ DEBUG
       = Ok (mk_result (index r) (length_ r) (id_ r) 1).
Proof.
  intros Hp Hwf Heven Hshort Hk Hb Hok Hfrom Hby Hto Hlen.
  set (f' := with_payload f (set_byte k b (fr_payload f))).
  assert (Hlt : (k < length (fr_payload f))%nat).
  { apply nth_error_Some. rewrite Hk. discriminate. }
  pose proof (Forall_elt _ _ _ Hwf) as Hwff.
  pose proof (Forall_elt _ _ _ Heven) as Hevf.
  assert (Hwff' : wf_frame f').
  { destruct Hwff as [H1 H2]. split; cbn [f' with_payload fr_payload fr_size];
      [rewrite set_byte_length by exact Hlt|]; assumption. }
  assert (Hwf' : Forall wf_frame (fs1 ++ f' :: fs2)).
  { apply Forall_app in Hwf. destruct Hwf as [W1 W2].
    inversion W2; subst. apply Forall_app. split; [|constructor]; assumption. }
  assert (Heven' : Forall even_frame (fs1 ++ f' :: fs2)).
  { apply Forall_app in Heven. destruct Heven as [E1 E2].
    inversion E2; subst. apply Forall_app. split; [|constructor]; assumption. }
  assert (Hsize : length (encode_frames (fs1 ++ f' :: fs2))
                  = length (encode_frames (fs1 ++ f :: fs2))).
  { rewrite !encode_frames_app, !encode_frames_cons, !length_app.
    unfold encode_frame. rewrite !length_app.
    change (encode_header f') with (encode_header f).
    cbn [f' with_payload fr_payload]. rewrite set_byte_length by exact Hlt.
    reflexivity. }
  assert (Hlayout : Forall2 (fun g g' => fr_id g = fr_id g' /\ fr_size g = fr_size g')
                      (fs1 ++ f :: fs2) (fs1 ++ f' :: fs2)).
  { apply Forall2_app; [apply same_layout_refl|].
    constructor; [split; reflexivity | apply same_layout_refl]. }
  destruct (same_layout_frames _ _ Hlayout) as (L1 & L2 & L3).
  assert (Hflag : existsb checksum_differs (fs1 ++ f' :: fs2) = true).
  { rewrite existsb_app. cbn [existsb].
    pose proof (checksum_differs_after_change f k b b0 Hwff Hevf Hshort Hk Hb Hok)
      as Hd.
    fold f' in Hd. rewrite Hd. apply orb_true_r. }
  eexists. split.
  - replace (p ++ encode_frames (fs1 ++ f :: fs2))
      with (p ++ encode_frames (fs1 ++ f :: fs2) ++ [])
      by (rewrite app_nil_r; reflexivity).
    apply do_ldc_frames_result; auto.
    intros E. destruct fs1; discriminate.
  - replace (p ++ encode_frames (fs1 ++ f' :: fs2))
      with (p ++ encode_frames (fs1 ++ f' :: fs2) ++ [])
      by (rewrite app_nil_r; reflexivity).
    rewrite (do_ldc_frames_result p (fs1 ++ f' :: fs2) [] from to by_ DEBUG); auto.
    + cbn [index length_ id_]. rewrite Hflag, <- L1, <- L2, <- L3. reflexivity.
    + intros E. destruct fs1; discriminate.
    + rewrite Hto, !length_app. reflexivity.
    + rewrite length_app in *. rewrite Hsize. exact Hlen.
Qed.

Lemma corrupted_payload_sets_flag_witness :
  exists r,
    do_ldc_ad2cp_in_file (Some ([] ++ encode_frames ([frame_a] ++ frame_b :: [])))
      1 2 1 0 = Ok r
    /\ do_ldc_ad2cp_in_file
         (Some ([] ++ encode_frames
                        ([frame_a]
                           ++ with_payload frame_b (set_byte 1 x01 (fr_payload frame_b))
                           :: [])))
         1 2 1 0
       = Ok (mk_result (index r) (length_ r) (id_ r) 1).
Proof.
  apply (corrupted_payload_sets_flag [] [frame_a] frame_b [] 1 x01 x00 1 2 1 0).
  - constructor.
  - repeat constructor; vm_compute; reflexivity.
  - repeat constructor.
  - vm_compute. reflexivity.
  - reflexivity.
  - discriminate.
  - vm_compute. reflexivity.
  - lia.
  - lia.
  - reflexivity.
  - vm_compute. reflexivity.
Defined.

(** ** What every result satisfies *)

Lemma scan_body_continue_full (st st' : state) :
  bufs_full st -> scan_body st = Ok (Continue st') -> bufs_full st'.
Proof.
  intros Hfull H. destruct (scan_body_shape st (Continue st') H)
    as (o & l & i & Hc & _ & Hi & Hl & Hd).
  destruct Hfull as (F1 & F2 & F3).
  rewrite store_full in Hi, Hl, Hd by assumption.
  unfold bufs_full. rewrite Hc, Hi, Hl, Hd, !length_app. cbn. lia.
Qed.

Lemma scan_loop_invariants (n : nat) : forall st st',
  bufs_full st ->
  broken_end st = 0 \/ broken_end st = 1 ->
  scan_loop n st = Ok st' ->
  length (index_buf st') = length (length_buf st')
  /\ length (length_buf st') = length (id_buf st')
  /\ (broken_end st' = 0 \/ broken_end st' = 1)
  /\ (chunk st' <= chunk st + n)%nat.
Proof.
  induction n as [|n IH]; intros st st' Hfull Hflag H.
  - injection H as <-. destruct Hfull as (F1 & F2 & F3).
    repeat split; auto; lia.
  - cbn [scan_loop] in H.
    destruct (scan_body st) as [[st1 | st1] | |] eqn:EB; try discriminate;
      cbn [bind] in H.
    + pose proof (scan_body_continue_full st st1 Hfull EB) as Hfull1.
      destruct (scan_body_shape st _ EB) as (o & l & i & Hc & Hb & _).
      destruct (IH st1 st' Hfull1) as (I1 & I2 & I3 & I4); auto.
      { destruct Hb as [Hb | Hb]; rewrite Hb; auto. }
      repeat split; auto. lia.
    + injection H as <-.
      destruct (scan_body_shape st _ EB) as (o & l & i & Hc & Hb & Hi & Hl & Hd).
      destruct Hfull as (F1 & F2 & F3).
      rewrite store_full in Hi, Hl, Hd by assumption.
      rewrite Hc, Hb, Hi, Hl, Hd, !length_app. cbn [length].
      repeat split; auto; lia.
Qed.

(** X15: every result has index, length and id lists of one common length, at
    most [to], and a flag that is 0 or 1. *)
Theorem result_lists_agree (s : list byte) (from to by_ DEBUG : Z) (r : result) :
  do_ldc_ad2cp_in_file (Some s) from to by_ DEBUG = Ok r ->
  length (index r) = length (length_ r)
  /\ length (length_ r) = length (id_ r)
  /\ Z.of_nat (length (index r)) <= to
  /\ (brokenEnd r = 0 \/ brokenEnd r = 1).
Proof.
  unfold do_ldc_ad2cp_in_file. intros H.
  destruct (from <? 0); [discriminate|].
  destruct (to <? 0) eqn:E2; [discriminate|].
  destruct (by_ <? 0); [discriminate|].
  destruct (sync_locate s 0) as [[s1 c0] | |]; try discriminate.
  cbn [bind] in H. unfold omap in H.
  destruct (scan_loop _ _) as [st' | |] eqn:EL; try discriminate.
  cbn [bind] in H. injection H as <-.
  apply scan_loop_invariants in EL;
    [| apply initial_state_full | left; reflexivity].
  destruct EL as (L1 & L2 & Hflag & Hchunk).
  cbn [initial_state chunk Nat.add] in Hchunk.
  assert (Hto : Z.of_nat (Z.to_nat (to_uint to)) <= to).
  { pose proof (to_uint_range to). unfold to_uint in *.
    pose proof (Z.mod_le to (2 ^ 32)). lia. }
  unfold export. cbn [index length_ id_ brokenEnd].
  rewrite !length_map, !length_firstn, <- L2, <- L1.
  repeat split; auto. lia.
Qed.

Lemma result_lists_agree_witness :
  length (index (mk_result [10] [4] [21] 0))
  = length (length_ (mk_result [10] [4] [21] 0))
  /\ length (length_ (mk_result [10] [4] [21] 0))
     = length (id_ (mk_result [10] [4] [21] 0))
  /\ Z.of_nat (length (index (mk_result [10] [4] [21] 0))) <= 2
  /\ (brokenEnd (mk_result [10] [4] [21] 0) = 0
      \/ brokenEnd (mk_result [10] [4] [21] 0) = 1).
Proof.
  apply (result_lists_agree truncated_stream 1 2 1 0).
  vm_compute. reflexivity.
Defined.

(** A result for a file of fewer than 2^31 bytes lists the frames the
    file holds after the bytes before the first SYNC. *)
Lemma do_ldc_returns_frames (s : list byte) (from to by_ DEBUG : Z) (r : result) :
  Z.of_nat (length s) < 2 ^ 31 ->
  do_ldc_ad2cp_in_file (Some s) from to by_ DEBUG = Ok r ->
  exists (p : list byte) (fs : list frame) (tail : list byte),
    s = p ++ encode_frames fs ++ tail
    /\ Forall (fun b => b <> SYNC) p
    /\ Forall wf_frame fs
    /\ Z.of_nat (length fs) <= to
    /\ index r = payload_starts (Z.of_nat (length p)) fs
    /\ length_ r = payload_lengths fs
    /\ id_ r = ids fs.
Proof.
  intros Hlen H. unfold do_ldc_ad2cp_in_file in H.
  destruct (from <? 0); [discriminate|].
  destruct (to <? 0) eqn:E2; [discriminate|].
  destruct (by_ <? 0); [discriminate|].
  destruct (sync_locate s 0) as [[s1 c0] | |] eqn:ES; try discriminate.
  cbn [bind] in H. unfold omap in H.
  destruct (scan_loop _ _) as [st' | |] eqn:EL; try discriminate.
  cbn [bind] in H. injection H as <-.
  apply sync_locate_inv in ES; [|lia].
  destruct ES as (p & t & Hs & Hs1 & Hp & Hc0).
  assert (Hlen' : Z.of_nat (length p) + Z.of_nat (length s1) < 2 ^ 31).
  { rewrite Hs, length_app in Hlen. lia. }
  rewrite Z.add_0_l, to_uint_small in Hc0 by lia. subst c0.
  apply scan_loop_inv in EL;
    [| apply initial_state_full | cbn [initial_state fp]; lia].
  destruct EL as (fs & tail & Hwf & Hfp & Hn & Hi & Hl & Hd).
  cbn [initial_state fp index_buf length_buf id_buf cindex app] in Hfp, Hi, Hl, Hd.
  destruct (offsets_no_wrap fs (Z.of_nat (length p))) as [Ho Hz]; [lia | exact Hwf | |].
  { rewrite Hfp, length_app in Hlen'. lia. }
  rewrite Ho in Hi. rewrite Hz in Hl. rewrite ids_to_int in Hd.
  exists p, fs, tail. repeat split; auto.
  - rewrite Hs, Hfp. reflexivity.
  - pose proof (to_uint_range to). unfold to_uint in *.
    pose proof (Z.mod_le to (2 ^ 32)). lia.
Qed.

(** X16: every result for a file of fewer than 2^31 bytes is read off frames
    that are in the file: after the bytes before the first SYNC the file
    holds well-formed frames, at most [to] of them are listed, and the
    result gives the position of each payload, its length and its id. *)
Theorem records_are_frames_of_the_file (s : list byte) (from to by_ DEBUG : Z)
    (r : result) :
  Z.of_nat (length s) < 2 ^ 31 ->
  do_ldc_ad2cp_in_file (Some s) from to by_ DEBUG = Ok r ->
  exists (p : list byte) (fs : list frame) (tail : list byte),
    s = p ++ encode_frames fs ++ tail
    /\ Forall (fun b => b <> SYNC) p
    /\ Forall wf_frame fs
    /\ Z.of_nat (length fs) <= to
    /\ index r = payload_starts (Z.of_nat (length p)) fs
    /\ length_ r = payload_lengths fs
    /\ id_ r = ids fs.
Proof.
  apply do_ldc_returns_frames.
Qed.

Lemma records_are_frames_of_the_file_witness :
  exists (p : list byte) (fs : list frame) (tail : list byte),
    truncated_stream = p ++ encode_frames fs ++ tail
    /\ Forall (fun b => b <> SYNC) p
    /\ Forall wf_frame fs
    /\ Z.of_nat (length fs) <= 2
    /\ index (mk_result [10] [4] [21] 0) = payload_starts (Z.of_nat (length p)) fs
    /\ length_ (mk_result [10] [4] [21] 0) = payload_lengths fs
    /\ id_ (mk_result [10] [4] [21] 0) = ids fs.
Proof.
  apply (records_are_frames_of_the_file truncated_stream 1 2 1 0).
  - vm_compute. reflexivity.
  - vm_compute. reflexivity.
Defined.

Lemma payload_starts_within (fs : list frame) : forall (c : Z) (i : nat) (o l : Z),
  Forall wf_frame fs ->
  nth_error (payload_starts c fs) i = Some o ->
  nth_error (payload_lengths fs) i = Some l ->
  0 <= l /\ c + 10 <= o /\ o + l <= c + Z.of_nat (length (encode_frames fs)).
Proof.
  induction fs as [|f fs IH]; intros c i o l Hwf Ho Hl.
  - destruct i; discriminate.
  - inversion Hwf as [|? ? Hwf1 Hwf2]; subst.
    rewrite encode_frames_cons, length_app, Nat2Z.inj_add, (encode_frame_length f Hwf1).
    pose proof (size_value_range (fr_size f)) as Hs.
    assert (Hh : 10 <= ub (header_size_byte (fr_size f)))
      by (destruct (header_size_10_or_12 (fr_size f)); lia).
    cbn [payload_starts payload_lengths map] in Ho, Hl.
    fold (payload_lengths fs) in Hl.
    destruct i as [|i]; cbn [nth_error] in Ho, Hl.
    + injection Ho as <-. injection Hl as <-. lia.
    + destruct (IH _ i o l Hwf2 Ho Hl) as (A & B & C). lia.
Qed.

(** X17: in a result for a file of fewer than 2^31 bytes every record lies
    inside the file: its offset is at least 10 and offset plus length is
    at most the file size. *)
Theorem records_lie_within_file (s : list byte) (from to by_ DEBUG : Z) (r : result)
    (i : nat) (o l : Z) :
  Z.of_nat (length s) < 2 ^ 31 ->
  do_ldc_ad2cp_in_file (Some s) from to by_ DEBUG = Ok r ->
  nth_error (index r) i = Some o ->
  nth_error (length_ r) i = Some l ->
  0 <= l /\ 10 <= o /\ o + l <= Z.of_nat (length s).
Proof.
  intros Hlen H Ho Hl.
  destruct (do_ldc_returns_frames s from to by_ DEBUG r Hlen H)
    as (p & fs & tail & Hs & _ & Hwf & _ & Hi & Hz & _).
  rewrite Hi in Ho. rewrite Hz in Hl.
  destruct (payload_starts_within fs _ i o l Hwf Ho Hl) as (A & B & C).
  rewrite Hs, !length_app. lia.
Qed.

Lemma records_lie_within_file_witness :
  0 <= 4 /\ 10 <= 10 /\ 10 + 4 <= Z.of_nat (length truncated_stream).
Proof.
  apply (records_lie_within_file truncated_stream 1 2 1 0
           (mk_result [10] [4] [21] 0) 0 10 4).
  - vm_compute. reflexivity.
  - vm_compute. reflexivity.
  - reflexivity.
  - reflexivity.
Defined.

(** ** The payload buffer *)










(** X19: A pass that reaches the end of the loop body has read a header and
    the payload after it, and never shrinks [dbuf]: the new [dbuflen] is
    the larger of the old one and the payload length, it is the length
    of the buffer, and the buffer holds that payload followed by what the
    old buffer held after that many bytes. *)
Theorem dbuf_never_shrinks (st st' : state) :
  Z.of_nat (length (dbuf st)) = dbuflen st ->
  scan_body st = Ok (Continue st') ->
  exists f,
    fp st = encode_header f ++ fr_payload f ++ fp st'
    /\ dbuf st' = fr_payload f ++ skipn (length (fr_payload f)) (dbuf st)
    /\ dbuflen st' = Z.max (dbuflen st) (Z.of_nat (length (fr_payload f)))
    /\ Z.of_nat (length (dbuf st')) = dbuflen st'
    /\ dbuflen st <= dbuflen st'.
Proof.
  intros Hinv H. unfold scan_body in H.
  destruct (read_header (fp st)) as [[h fp1] | |] eqn:EH; try discriminate.
  cbn [bind] in H.
  destruct (read_header_inv _ _ _ EH) as (f0 & _ & Hfp & _).
  destruct (fread (data_size h) fp1) as [got fp2] eqn:EF.
  destruct (fread_split _ _ _ _ EF) as [Hfp1 _].
  destruct (_ <? Z.of_nat (length got)) eqn:Eroom; [discriminate|].
  destruct (Z.of_nat (length got) =? data_size h) eqn:Eall;
    cbn [negb] in H; [|discriminate].
  destruct (cs _ _) as [c | |]; try discriminate.
  cbn [bind] in H. injection H as <-. cbn [dbuflen dbuf fp].
  apply Z.eqb_eq in Eall. apply Z.ltb_ge in Eroom.
  rewrite <- Eall in *.
  assert (Hlen : Z.of_nat (length (got ++ skipn (length got) (dbuf st)))
                 = Z.max (dbuflen st) (Z.of_nat (length got))).
  { rewrite length_app, length_skipn. lia. }
  assert (Hmod : to_uint (Z.of_nat (length got)) <= Z.of_nat (length got)).
  { unfold to_uint. apply Z.mod_le; lia. }
  assert (Hnew : (if dbuflen st <? Z.of_nat (length got)
                  then to_uint (Z.of_nat (length got)) else dbuflen st)
                 = Z.max (dbuflen st) (Z.of_nat (length got))).
  { destruct (dbuflen st <? Z.of_nat (length got)) eqn:E; lia. }
  exists (with_payload f0 got). cbn [with_payload fr_payload].
  change (encode_header (with_payload f0 got)) with (encode_header f0).
  rewrite Hnew, Hlen.
  split; [rewrite Hfp, Hfp1; reflexivity|].
  split; [reflexivity|]. split; [reflexivity|]. split; [reflexivity|]. lia.
Qed.

Lemma dbuf_never_shrinks_witness :
  exists f,
    fp (initial_state (encode_frame frame_10002 ++ [xa5]) 0)
    = encode_header f ++ fr_payload f ++ [xa5]
    /\ dbuf (after_frame (initial_state (encode_frame frame_10002 ++ [xa5]) 0)
               frame_10002 [xa5] 46476)
       = fr_payload f ++ skipn (length (fr_payload f)) (repeat x00 (Z.to_nat 10000))
    /\ dbuflen (after_frame (initial_state (encode_frame frame_10002 ++ [xa5]) 0)
                  frame_10002 [xa5] 46476)
       = Z.max 10000 (Z.of_nat (length (fr_payload f))).
Proof.
  destruct (dbuf_never_shrinks
              (initial_state (encode_frame frame_10002 ++ [xa5]) 0)
              (after_frame (initial_state (encode_frame frame_10002 ++ [xa5]) 0)
                 frame_10002 [xa5] 46476))
    as (f & H1 & H2 & H3 & _).
  - vm_compute. reflexivity.
  - vm_compute. reflexivity.
  - exists f. split; [exact H1|]. split; [exact H2 | exact H3].
Defined.

(** ** Raising the limit *)

Lemma scan_loop_split (n m : nat) : forall st st1,
  bufs_full st ->
  scan_loop n st = Ok st1 ->
  scan_loop (n + m) st = Ok st1
  \/ (bufs_full st1 /\ scan_loop (n + m) st = scan_loop m st1).
Proof.
  induction n as [|n IH]; intros st st1 Hfull H.
  - injection H as <-. right. auto.
  - cbn [scan_loop Nat.add] in *.
    destruct (scan_body st) as [[st' | st'] | |] eqn:EB; try discriminate;
      cbn [bind] in *.
    + apply IH; [|exact H]. apply (scan_body_continue_full st st' Hfull EB).
    + left. exact H.
Qed.

(** X20: when two calls on the same file with limits [to <= to'] both return,
    the result for [to'] starts with the records of the result for [to],
    and its flag is 1 when that of [to] is. *)
Theorem raising_limit_extends_result (s : list byte) (from to to' by_ DEBUG : Z)
    (r r' : result) :
  to <= to' < 2 ^ 32 ->
  do_ldc_ad2cp_in_file (Some s) from to by_ DEBUG = Ok r ->
  do_ldc_ad2cp_in_file (Some s) from to' by_ DEBUG = Ok r' ->
  (exists mi ml md,
     index r' = index r ++ mi
     /\ length_ r' = length_ r ++ ml
     /\ id_ r' = id_ r ++ md)
  /\ (brokenEnd r = 1 -> brokenEnd r' = 1).
Proof.
  intros Hto H H'. unfold do_ldc_ad2cp_in_file in H, H'.
  destruct (from <? 0); [discriminate|].
  destruct (to <? 0) eqn:E2; [discriminate|].
  destruct (to' <? 0) eqn:E2'; [discriminate|].
  destruct (by_ <? 0); [discriminate|].
  destruct (sync_locate s 0) as [[s1 c0] | |]; try discriminate.
  cbn [bind] in H, H'. unfold omap in H, H'.
  rewrite !to_uint_small in * by lia.
  destruct (scan_loop (Z.to_nat to) _) as [st1 | |] eqn:EL; try discriminate.
  destruct (scan_loop (Z.to_nat to') _) as [st2 | |] eqn:EL'; try discriminate.
  cbn [bind] in H, H'. injection H as <-. injection H' as <-.
  replace (Z.to_nat to') with (Z.to_nat to + (Z.to_nat to' - Z.to_nat to))%nat
    in EL' by lia.
  destruct (scan_loop_split (Z.to_nat to) (Z.to_nat to' - Z.to_nat to) _ st1
              (initial_state_full s1 c0) EL) as [Hsame | [Hfull1 Hmore]].
  - rewrite Hsame in EL'. injection EL' as <-. split; [|auto].
    exists [], [], []. rewrite !app_nil_r. auto.
  - rewrite Hmore in EL'.
    destruct (scan_loop_extends _ st1 st2 Hfull1 EL') as [Hext Hflag].
    split; [exact Hext | exact Hflag].
Qed.

Lemma raising_limit_extends_result_witness :
  (exists mi ml md,
     index (mk_result [10; 24] [4; 4] [21; 21] 1)
     = index (mk_result [10] [4] [21] 0) ++ mi
     /\ length_ (mk_result [10; 24] [4; 4] [21; 21] 1)
        = length_ (mk_result [10] [4] [21] 0) ++ ml
     /\ id_ (mk_result [10; 24] [4; 4] [21; 21] 1)
        = id_ (mk_result [10] [4] [21] 0) ++ md)
  /\ (brokenEnd (mk_result [10] [4] [21] 0) = 1 ->
      brokenEnd (mk_result [10; 24] [4; 4] [21; 21] 1) = 1).
Proof.
  apply (raising_limit_extends_result (encode_frames [frame_a; frame_c]) 1 1 2 1 0).
  - lia.
  - vm_compute. reflexivity.
  - vm_compute. reflexivity.
Defined.

(** ** Long payloads and large size fields *)

(** X21: for a payload of even length, the call of [cs] with that length sums
    the first (length mod 65536) bytes only: the bytes after them have
    no effect on the checksum that is compared with the header. *)
Theorem cs_sums_length_mod_65536 (payload tail : list byte) :
  Z.even (Z.of_nat (length payload)) = true ->
  cs (payload ++ tail) (to_ushort (Z.of_nat (length payload)))
  = Ok (checksum_of
          (firstn (Z.to_nat (Z.of_nat (length payload) mod 2 ^ 16)) payload)).
Proof.
  intros Heven. rewrite (cs_payload payload tail Heven). reflexivity.
Qed.

Lemma cs_sums_length_mod_65536_witness :
  cs (repeat x01 (Z.to_nat 65538) ++ [x00])
     (to_ushort (Z.of_nat (length (repeat x01 (Z.to_nat 65538)))))
  = Ok (checksum_of
          (firstn (Z.to_nat (Z.of_nat (length (repeat x01 (Z.to_nat 65538))) mod 2 ^ 16))
             (repeat x01 (Z.to_nat 65538))))
  /\ Z.of_nat (length (repeat x01 (Z.to_nat 65538))) = 65538
  /\ firstn (Z.to_nat (Z.of_nat (length (repeat x01 (Z.to_nat 65538))) mod 2 ^ 16))
       (repeat x01 (Z.to_nat 65538))
     = [x01; x01].
Proof.
  split; [|split].
  - apply (cs_sums_length_mod_65536 (repeat x01 (Z.to_nat 65538)) [x00]).
    vm_compute. reflexivity.
  - vm_compute. reflexivity.
  - vm_compute. reflexivity.
Defined.

(** X22: A file that is one complete frame whose 32-bit size field is 2^31 or
    more gives no record and the flag 0: the size is decoded to a value
    above 2^64 - 2^31, so the read of the payload counts as short. *)
Theorem frame_of_2G_or_more_is_dropped (f : frame) (from to by_ DEBUG : Z) :
  Z.of_nat (length (fr_payload f)) = size_value (fr_size f) ->
  2 ^ 31 <= size_value (fr_size f) ->
  0 <= from -> 0 < to < 2 ^ 32 -> 0 <= by_ ->
  do_ldc_ad2cp_in_file (Some (encode_frame f)) from to by_ DEBUG
  = Ok (mk_result [] [] [] 0).
Proof.
  apply large_frame_not_returned.
Qed.

Lemma frame_of_2G_or_more_is_dropped_witness :
  do_ldc_ad2cp_in_file (Some (encode_frame frame_2G)) 1 1 1 0
  = Ok (mk_result [] [] [] 0).
Proof.
  apply (frame_of_2G_or_more_is_dropped frame_2G 1 1 1 0).
  - unfold frame_2G. cbn [fr_payload fr_size].
    rewrite repeat_length, Z2Nat.id by lia. reflexivity.
  - lazy. discriminate.
  - lia.
  - lia.
  - lia.
Defined.

(** ** A file that ends inside a payload *)

Lemma run_frames_full (fs : list frame) (st : state) (rest : list byte) :
  bufs_full st -> bufs_full (run_frames st fs rest).
Proof.
  intros Hfull. destruct (run_frames_bufs fs st rest Hfull) as (Hi & Hl & Hd).
  destruct Hfull as (F1 & F2 & F3).
  unfold bufs_full. rewrite Hi, Hl, Hd, run_frames_chunk, !length_app.
  unfold sizes, ids. rewrite offsets_length, !length_map. lia.
Qed.

Lemma encode_header_head (f : frame) : exists t, encode_header f = SYNC :: t.
Proof. eexists. reflexivity. Qed.

(** X23: A file of K well-formed frames followed by a header and fewer payload
    bytes than it announces, scanned with a limit above K: the call
    returns the K records; the flag is the one the K frames give, so it
    is 0 when their checksums are right. *)
Theorem truncated_payload_keeps_earlier_records (p : list byte) (fs : list frame)
    (f : frame) (part : list byte) (from to by_ DEBUG : Z) :
  Forall (fun b => b <> SYNC) p ->
  Forall wf_frame fs -> Forall even_frame fs ->
  Z.of_nat (length part) < size_value (fr_size f) < 2 ^ 31 ->
  0 <= from -> 0 <= by_ ->
  Z.of_nat (length fs) < to < 2 ^ 31 ->
  Z.of_nat (length (p ++ encode_frames fs)) < 2 ^ 31 ->
  do_ldc_ad2cp_in_file
    (Some (p ++ encode_frames fs ++ encode_header f ++ part)) from to by_ DEBUG
  = Ok (mk_result (payload_starts (Z.of_nat (length p)) fs) (payload_lengths fs)
          (ids fs) (if existsb checksum_differs fs then 1 else 0)).
Proof.
  intros Hp Hwf Heven Hpart Hfrom Hby Hto Hlen.
  rewrite length_app, Nat2Z.inj_add in Hlen.
  assert (Hsync : exists t, encode_frames fs ++ encode_header f ++ part = SYNC :: t).
  { destruct fs as [|g fs]; [|apply encode_frames_head].
    destruct (encode_header_head f) as [t Ht]. exists (t ++ part).
    cbn [encode_frames map concat app]. rewrite Ht. reflexivity. }
  rewrite (do_ldc_frames p fs (encode_header f ++ part) from to by_ DEBUG
             (S (Z.to_nat to - length fs - 1))); auto; try lia.
  set (st := run_frames _ fs _).
  assert (Hfull : bufs_full st) by apply run_frames_full, initial_state_full.
  destruct (scan_body_short_payload st (with_payload f part) Hfull)
    as (st' & Hbody & Hexp).
  - apply run_frames_fp. reflexivity.
  - exact Hpart.
  - cbn [scan_loop]. rewrite Hbody. cbn [bind omap]. rewrite Hexp.
    unfold st. rewrite export_run_frames.
    rewrite to_uint_small by lia.
    destruct (offsets_no_wrap fs (Z.of_nat (length p))) as [Ho Hl];
      [lia | exact Hwf | lia |].
    rewrite Ho, Hl, ids_to_int, flag_after_existsb. reflexivity.
Qed.

Lemma truncated_payload_keeps_earlier_records_witness :
  do_ldc_ad2cp_in_file
    (Some ([] ++ encode_frames [frame_a] ++ encode_header frame_b ++ [x00]))
    1 5 1 0
  = Ok (mk_result [10] [4] [21] 0).
Proof.
  apply (truncated_payload_keeps_earlier_records [] [frame_a] frame_b [x00] 1 5 1 0).
  - constructor.
  - repeat constructor; vm_compute; reflexivity.
  - repeat constructor.
  - split; vm_compute; reflexivity.
  - lia.
  - lia.
  - simpl. lia.
  - vm_compute. reflexivity.
Defined.

(** ** The records cover the file *)

Lemma payload_starts_last (fs : list frame) : forall (c : Z) (f : frame),
  Forall wf_frame (fs ++ [f]) ->
  exists o,
    nth_error (payload_starts c (fs ++ [f])) (length fs) = Some o
    /\ o + size_value (fr_size f) = c + Z.of_nat (length (encode_frames (fs ++ [f]))).
Proof.
  induction fs as [|g fs IH]; intros c f Hwf.
  - inversion Hwf as [|? ? Hwf1 _]; subst.
    eexists. split; [reflexivity|].
    cbn [app encode_frames map concat]. rewrite app_nil_r.
    rewrite (encode_frame_length f Hwf1). lia.
  - inversion Hwf as [|? ? Hwf1 Hwf2]; subst.
    destruct (IH (c + ub (header_size_byte (fr_size g)) + size_value (fr_size g))
                f Hwf2) as (o & Ho & Hend).
    exists o. split; [exact Ho|].
    change ((g :: fs) ++ [f]) with (g :: (fs ++ [f])).
    rewrite encode_frames_cons, length_app, Nat2Z.inj_add,
      (encode_frame_length g Hwf1). lia.
Qed.

(** X24: in a file that ends with the last of its K well-formed frames,
    scanned with the limit K, the last record ends where the file ends:
    its offset plus its length is the file size. *)
Theorem last_record_ends_the_file (p : list byte) (fs : list frame) (f : frame)
    (from to by_ DEBUG : Z) :
  Forall (fun b => b <> SYNC) p ->
  Forall wf_frame (fs ++ [f]) -> Forall even_frame (fs ++ [f]) ->
  0 <= from -> 0 <= by_ ->
  to = Z.of_nat (length (fs ++ [f])) ->
  Z.of_nat (length (p ++ encode_frames (fs ++ [f]))) < 2 ^ 31 ->
  exists r o l,
    do_ldc_ad2cp_in_file (Some (p ++ encode_frames (fs ++ [f]))) from to by_ DEBUG
    = Ok r
    /\ nth_error (index r) (length fs) = Some o
    /\ nth_error (length_ r) (length fs) = Some l
    /\ o + l = Z.of_nat (length (p ++ encode_frames (fs ++ [f]))).
Proof.
  intros Hp Hwf Heven Hfrom Hby Hto Hlen.
  destruct (payload_starts_last fs (Z.of_nat (length p)) f Hwf) as (o & Ho & Hend).
  exists (mk_result (payload_starts (Z.of_nat (length p)) (fs ++ [f]))
            (payload_lengths (fs ++ [f])) (ids (fs ++ [f]))
            (if existsb checksum_differs (fs ++ [f]) then 1 else 0)),
    o, (size_value (fr_size f)).
  split; [|split; [|split]].
  - replace (p ++ encode_frames (fs ++ [f]))
      with (p ++ encode_frames (fs ++ [f]) ++ [])
      by (rewrite app_nil_r; reflexivity).
    apply do_ldc_frames_result; auto.
    intros E. destruct fs; discriminate.
  - exact Ho.
  - cbn [length_]. unfold payload_lengths. rewrite map_app.
    rewrite nth_error_app2 by (rewrite length_map; lia).
    rewrite length_map, Nat.sub_diag. reflexivity.
  - rewrite length_app, Nat2Z.inj_add. lia.
Qed.

Lemma last_record_ends_the_file_witness :
  exists r o l,
    do_ldc_ad2cp_in_file (Some ([x00] ++ encode_frames ([frame_a] ++ [frame_b])))
      1 2 1 0 = Ok r
    /\ nth_error (index r) (length [frame_a]) = Some o
    /\ nth_error (length_ r) (length [frame_a]) = Some l
    /\ o + l = Z.of_nat (length ([x00] ++ encode_frames ([frame_a] ++ [frame_b]))).
Proof.
  apply (last_record_ends_the_file [x00] [frame_a] frame_b 1 2 1 0).
  - repeat constructor; discriminate.
  - repeat constructor; vm_compute; reflexivity.
  - repeat constructor.
  - lia.
  - lia.
  - reflexivity.
  - vm_compute. reflexivity.
Defined.
